(** * Meme generator backend: filters, caption layout and suggestion parsing

    A shallow embedding of [src/app.py].  Python strings are sequences of
    Unicode code points; the Pillow imaging library, the font machinery, the
    file system and the Unicode case mappings are collaborators of the
    program and appear as an interface with the laws the program relies on. *)

From Stdlib Require Import ZArith NArith List Bool Lia.
From Stdlib Require Strings.String Strings.Ascii Strings.Byte.
Import ListNotations String.StringSyntax.

Local Open Scope Z_scope.

(** ** Python strings *)

Module PyStr.

(** A [str] is a list of code points. *)
Definition char := N.
Definition str := list char.

Definition of_ascii (s : String.string) : str :=
  map Ascii.N_of_ascii (String.list_ascii_of_string s).

Definition space : char := 32%N.
Definition hash : char := 35%N.
Definition dash : char := 45%N.
Definition slash : char := 47%N.
Definition newline : char := 10%N.
(** U+2022 BULLET *)
Definition bullet : char := 8226%N.

Definition eqb (a b : str) : bool :=
  if list_eq_dec N.eq_dec a b then true else false.

(** [c in chars], the membership test behind [s.strip(chars)]. *)
Definition mem (chars : str) (c : char) : bool := existsb (N.eqb c) chars.

(** [str.isspace] on one code point: the characters [s.strip()] and
    [s.split()] treat as whitespace. *)
Definition isspace (c : char) : bool :=
  ((9 <=? c) && (c <=? 13) || (28 <=? c) && (c <=? 32)
   || (c =? 133) || (c =? 160) || (c =? 5760)
   || (8192 <=? c) && (c <=? 8202)
   || (c =? 8232) || (c =? 8233) || (c =? 8239) || (c =? 8287)
   || (c =? 12288))%N.

(** Removing the longest prefix, resp. suffix, of characters satisfying [p]. *)
Fixpoint lstrip_by (p : char -> bool) (s : str) : str :=
  match s with
  | [] => []
  | c :: s' => if p c then lstrip_by p s' else s
  end.

Fixpoint rstrip_by (p : char -> bool) (s : str) : str :=
  match s with
  | [] => []
  | c :: s' =>
      match rstrip_by p s' with
      | [] => if p c then [] else [c]
      | r => c :: r
      end
  end.

Definition strip_by (p : char -> bool) (s : str) : str :=
  rstrip_by p (lstrip_by p s).

(** [s.strip(chars)], [s.lstrip(chars)], [s.strip()], [s.rstrip()]. *)
Definition strip_chars (chars s : str) : str := strip_by (mem chars) s.
Definition lstrip_chars (chars s : str) : str := lstrip_by (mem chars) s.
Definition strip (s : str) : str := strip_by isspace s.
Definition rstrip (s : str) : str := rstrip_by isspace s.

(** [s.startswith(c)] for a one-character prefix. *)
Definition startswith (c : char) (s : str) : bool :=
  match s with
  | c' :: _ => N.eqb c' c
  | [] => false
  end.

Definition endswith (c : char) (s : str) : bool := startswith c (rev s).

(** [s.split(sep)] for a one-character separator: never returns the empty
    list, and keeps empty fields. *)
Fixpoint split_on (sep : char) (s : str) : list str :=
  match s with
  | [] => [[]]
  | c :: s' =>
      if N.eqb c sep then [] :: split_on sep s'
      else match split_on sep s' with
           | w :: ws => (c :: w) :: ws
           | [] => [[c]]
           end
  end.

(** [s.split()]: fields separated by runs of whitespace, no empty field.
    [cur] is the field being read, most recent character first. *)
Fixpoint split_ws_from (cur : str) (s : str) : list str :=
  match s with
  | [] => match cur with [] => [] | _ => [rev cur] end
  | c :: s' =>
      if isspace c
      then match cur with
           | [] => split_ws_from [] s'
           | _ => rev cur :: split_ws_from [] s'
           end
      else split_ws_from (c :: cur) s'
  end.

Definition split (s : str) : list str := split_ws_from [] s.

(** [sep.join(parts)] *)
Fixpoint join (sep : str) (parts : list str) : str :=
  match parts with
  | [] => []
  | [p] => p
  | p :: rest => p ++ sep ++ join sep rest
  end.

End PyStr.

Import PyStr.

(** ** The suggestion parser ([generate_captions], lines 175-195) *)

Record Suggestions := mkSuggestions {
  captions : list str;
  hashtags : list str;
  description : str
}.

(** Line 176. *)
Definition no_suggestions : Suggestions := mkSuggestions [] [] [].

(** The characters of ["-• "], line 181. *)
Definition bullets : str := [dash; bullet; space].

(** Lines 182-189: what the loop body does with the line once it has been
    trimmed. *)
Definition dispatch_line (st : Suggestions) (line : str) : Suggestions :=
  match line with
  | [] => st
  | _ =>
      if startswith hash line then
        mkSuggestions (captions st)
                      (hashtags st ++ [strip_chars [hash] line])
                      (description st)
      else if (Z.of_nat (length (captions st)) <? 3) then
        mkSuggestions (captions st ++ [line]) (hashtags st) (description st)
      else
        mkSuggestions (captions st) (hashtags st)
                      (description st ++ line ++ [space])
  end.

(** Lines 181-189: one iteration of the loop over [parts]. *)
Definition process_line (st : Suggestions) (line : str) : Suggestions :=
  dispatch_line st (strip_chars bullets line).

(** Lines 175-195 of [generate_captions]: what the handler does with the
    reply [text] of the model, [None] when it is absent.  The result holds
    the three fields of the JSON response. *)
Definition generate_captions (text : option str) : Suggestions :=
  let st :=
    match text with
    | None | Some [] => no_suggestions
    | Some t => fold_left process_line (split_on newline t) no_suggestions
    end in
  mkSuggestions (captions st) (hashtags st) (strip (description st)).

(** ** Exceptions *)

Inductive exn :=
| ValueError
| ZeroDivisionError
| OSError.

Inductive result (A : Type) :=
| Ok (a : A)
| Raise (e : exn).
Arguments Ok {A} a.
Arguments Raise {A} e.

Definition bind {A B : Type} (r : result A) (k : A -> result B) : result B :=
  match r with
  | Ok a => k a
  | Raise e => Raise e
  end.

Notation "x <- r ;; k" := (bind r (fun x => k))
  (at level 61, r at next level, right associativity).

(** ** Python floats

    A Python [float] is an IEEE 754 binary64 number.  The program only forms
    quotients and products of pixel counts, which stay far inside the
    exponent range, so a float is modelled as a dyadic number
    [Fnum * 2 ^ Fexp] whose significand is rounded to 53 bits, to nearest
    with ties to even. *)

Module Float.

Record float := mk { Fnum : Z; Fexp : Z }.

Definition prec : Z := 53.

(** [n / 2 ^ d] rounded to the nearest integer, ties to even
    ([0 <= n], [0 < d]). *)
Definition rne_shift (n d : Z) : Z :=
  let q := n / 2 ^ d in
  let r := n mod 2 ^ d in
  let h := 2 ^ (d - 1) in
  if r <? h then q
  else if h <? r then q + 1
  else if Z.even q then q else q + 1.

(** The binary64 number nearest to [m * 2 ^ e]. *)
Definition round (m e : Z) : float :=
  let d := Z.log2 (Z.abs m) + 1 - prec in
  if d <=? 0 then mk m e
  else mk (Z.sgn m * rne_shift (Z.abs m) d) (e + d).

(** [float(n)] for a Python [int]. *)
Definition of_int (n : Z) : float := round n 0.

(** [x * y] *)
Definition mul (x y : float) : float :=
  round (Fnum x * Fnum y) (Fexp x + Fexp y).

(** [n / d] for two Python [int]s with [d] not zero: the correctly rounded
    quotient.  The quotient is computed with at least 56 significant bits
    and a sticky bit for the remainder, then rounded. *)
Definition div_int (n d : Z) : float :=
  let a := Z.abs n in
  let b := Z.abs d in
  let k := Z.max 0 (56 + Z.log2 b - Z.log2 a) in
  let q := (a * 2 ^ k) / b in
  let sticky := if (a * 2 ^ k) mod b =? 0 then 0 else 1 in
  round (Z.sgn n * Z.sgn d * (2 * q + sticky)) (- (k + 1)).

(** [n / d] with Python's check of the divisor. *)
Definition true_div (n d : Z) : result float :=
  if d =? 0 then Raise ZeroDivisionError else Ok (div_int n d).

(** [int(x)]: truncation toward zero. *)
Definition to_int (x : float) : Z :=
  if 0 <=? Fexp x then Fnum x * 2 ^ Fexp x
  else Z.quot (Fnum x) (2 ^ (- Fexp x)).

(** The decimal literal [p / q], read as Python reads it: the nearest
    binary64 number. *)
Definition literal (p q : Z) : float := div_int p q.

(** [2 ^ prec], the inverse of the unit roundoff. *)
Definition u53 : Z := 2 ^ 53.

End Float.

(** ** Images, fonts and the services of the platform *)

Inductive Mode := ModeL | ModeRGB | ModeRGBA.

(** A raster: its mode, its size [(width, height)] and its pixels, row by
    row, one list of band values per pixel. *)
Record Image := mkImage {
  mode : Mode;
  size : Z * Z;
  pixels : list (list N)
}.

Inductive Resample := NEAREST | BILINEAR | BICUBIC | LANCZOS.

(** A bounding box [(left, top, right, bottom)]. *)
Definition BBox : Type := Z * Z * Z * Z.
Definition bbox_left (b : BBox) : Z := let '(l, _, _, _) := b in l.
Definition bbox_top (b : BBox) : Z := let '(_, t, _, _) := b in t.
Definition bbox_right (b : BBox) : Z := let '(_, _, r, _) := b in r.
Definition bbox_bottom (b : BBox) : Z := let '(_, _, _, b') := b in b'.

Definition bytes := list Byte.byte.

(** What the program calls and does not define: the case mappings of [str],
    [os.path.exists], and the functions of Pillow it uses.  [Font] is the
    type of font objects.  Functions that mutate an image in place
    ([paste], [text]) return the image after the call. *)
Record Platform := mkPlatform {
  Font : Type;
  (** [s.lower()], [s.upper()] *)
  lower : str -> str;
  upper : str -> str;
  (** [os.path.exists(path)] *)
  path_exists : str -> bool;
  (** [Image.open(path)], with the decoding that the first use triggers *)
  Image_open : str -> result Image;
  (** [ImageOps.grayscale(img)] *)
  ImageOps_grayscale : Image -> Image;
  (** [ImageOps.colorize(img, black, white)] *)
  ImageOps_colorize : Image -> str -> str -> Image;
  (** [img.convert(mode)] *)
  Image_convert : Image -> Mode -> Image;
  (** [img.filter(ImageFilter.GaussianBlur(radius))] *)
  Image_filter_GaussianBlur : Image -> Z -> Image;
  (** [ImageEnhance.Brightness(img).enhance(factor)] *)
  Brightness_enhance : Image -> Float.float -> Image;
  (** [ImageEnhance.Contrast(img).enhance(factor)] *)
  Contrast_enhance : Image -> Float.float -> Image;
  (** [img.resize(size, resample)] *)
  Image_resize : Image -> Z * Z -> Resample -> result Image;
  (** [img.paste(im, box, mask)] *)
  Image_paste : Image -> Image -> Z * Z -> Image -> Image;
  (** [ImageFont.truetype(name, size)] *)
  ImageFont_truetype : str -> Z -> result Font;
  (** [ImageFont.load_default()] *)
  ImageFont_load_default : Font;
  (** [font.getbbox(text)] *)
  Font_getbbox : Font -> str -> BBox;
  (** [ImageDraw.Draw(image).textbbox((0, 0), text, font=font)] *)
  Draw_textbbox : Image -> str -> Font -> BBox;
  (** [ImageDraw.Draw(image).text(xy, text, font=font, fill="white",
      stroke_width=stroke, stroke_fill="black")] *)
  Draw_text : Image -> Z * Z -> str -> Font -> Z -> Image;
  (** [image.save(out, format="JPEG", quality=q); out.getvalue()] *)
  Image_save_JPEG : Image -> Z -> result bytes
}.

(** The documented behaviour of the library that the program relies on:
    every operation but [resize] keeps the size of the image it works on,
    [resize] returns an image of the requested size, and whitespace has no
    upper case. *)
Record PlatformLaws (P : Platform) : Prop := mkPlatformLaws {
  grayscale_size : forall im, size (ImageOps_grayscale P im) = size im;
  colorize_size : forall im b w, size (ImageOps_colorize P im b w) = size im;
  convert_size : forall im m, size (Image_convert P im m) = size im;
  blur_size : forall im r, size (Image_filter_GaussianBlur P im r) = size im;
  brightness_size : forall im f, size (Brightness_enhance P im f) = size im;
  contrast_size : forall im f, size (Contrast_enhance P im f) = size im;
  paste_size : forall im ov box mask, size (Image_paste P im ov box mask) = size im;
  resize_size : forall im sz r im', Image_resize P im sz r = Ok im' -> size im' = sz;
  upper_space : forall s, forallb isspace s = true -> forallb isspace (upper P s) = true
}.

(** [posixpath.join(a, *p)] *)
Definition path_join (a : str) (p : list str) : str :=
  fold_left
    (fun path b =>
       if startswith slash b then b
       else match path with
            | [] => b
            | _ => if endswith slash path then path ++ b
                   else path ++ [slash] ++ b
            end)
    p a.

Local Open Scope string_scope.

(** ** The filter engine ([apply_filter], lines 33-77) *)

Section Filters.

Variable P : Platform.

(** Line 52. *)
Definition overlay_path (filter_name : str) : str :=
  path_join (of_ascii "static") [of_ascii "filters"; filter_name ++ of_ascii ".png"].

(** Lines 58-60: the size the overlay is resized to, from the width [W] of
    the base image and the size of the overlay. *)
Definition overlay_new_size (W : Z) (overlay_size : Z * Z) : result (Z * Z) :=
  let scale := W / 2 in
  aspect <- Float.true_div (snd overlay_size) (fst overlay_size) ;;
  Ok (scale, Float.to_int (Float.mul (Float.of_int scale) aspect)).

(** Lines 63-70: where the overlay goes, from the size of the base image and
    the size of the resized overlay. *)
Definition overlay_pos (filter_name : str) (W H : Z) (overlay_size : Z * Z) : Z * Z :=
  if eqb filter_name (of_ascii "dog") then (W / 5, H / 25)
  else if eqb filter_name (of_ascii "sunglasses") then (W / 5, H / 4)
  else if eqb filter_name (of_ascii "flower") then (W / 5, 0)
  else (W / 2 - fst overlay_size / 2, H / 2 - snd overlay_size / 2).

(** Lines 54-75: the overlay branch, [filter_name] already normalised. *)
Definition apply_overlay (img : Image) (filter_name : str) : result Image :=
  overlay <- Image_open P (overlay_path filter_name) ;;
  let overlay := Image_convert P overlay ModeRGBA in
  let '(W, H) := size img in
  new_size <- overlay_new_size W (size overlay) ;;
  overlay <- Image_resize P overlay new_size LANCZOS ;;
  let pos := overlay_pos filter_name W H (size overlay) in
  let img := Image_convert P img ModeRGBA in
  let img := Image_paste P img overlay pos overlay in
  Ok (Image_convert P img ModeRGB).

Definition apply_filter (img : Image) (filter_name : str) : result Image :=
  let filter_name := strip (lower P filter_name) in
  if eqb filter_name (of_ascii "grayscale") then
    Ok (Image_convert P (ImageOps_grayscale P img) ModeRGB)
  else if eqb filter_name (of_ascii "sepia") then
    let sepia := ImageOps_colorize P (ImageOps_grayscale P img)
                   (of_ascii "#704214") (of_ascii "#C0A080") in
    Ok (Image_convert P sepia ModeRGB)
  else if eqb filter_name (of_ascii "blur") then
    Ok (Image_filter_GaussianBlur P img 3)
  else if eqb filter_name (of_ascii "bright") then
    Ok (Brightness_enhance P img (Float.literal 14 10))
  else if eqb filter_name (of_ascii "contrast") then
    Ok (Contrast_enhance P img (Float.literal 18 10))
  else if path_exists P (overlay_path filter_name) then
    apply_overlay img filter_name
  else Ok img.

(** The five names of lines 37-49. *)
Definition builtin_filters : list str :=
  map of_ascii ["grayscale"; "sepia"; "blur"; "bright"; "contrast"].


End Filters.

(** ** The text layout engine ([draw_caption_on_image], lines 79-136) *)

Section Caption.

Variable P : Platform.

(** Lines 85-93. *)
Fixpoint first_font (candidates : list str) (base_size : Z) : Font P :=
  match candidates with
  | [] => ImageFont_load_default P
  | c :: rest =>
      match ImageFont_truetype P c base_size with
      | Ok font => font
      | Raise _ => first_font rest base_size
      end
  end.

Definition font_candidates : list str :=
  map of_ascii ["Impact.ttf"; "impact.ttf"; "Arial.ttf"; "arial.ttf"].

(** Lines 105-106 and 108-109. *)
Definition flush (lines : list str) (current : str) : list str :=
  match current with
  | [] => lines
  | _ => lines ++ [current]
  end.

(** Lines 98-110: the loop over [words] and the final flush. *)
Fixpoint wrap_words (image : Image) (font : Font P) (W : Z)
    (words : list str) (lines : list str) (current : str) : list str :=
  match words with
  | [] => flush lines current
  | w :: rest =>
      let trial := strip (current ++ [space] ++ w) in
      let bbox := Draw_textbbox P image trial font in
      let tw := bbox_right bbox - bbox_left bbox in
      if tw <=? Float.to_int (Float.mul (Float.of_int W) (Float.literal 9 10))
      then wrap_words image font W rest lines trial
      else wrap_words image font W rest (flush lines current) w
  end.

(** Lines 96-110. *)
Definition wrap_text (image : Image) (font : Font P) (W : Z) (txt : str) : list str :=
  wrap_words image font W (split txt) [] [].

(** Lines 126-132: drawing the lines, top to bottom. *)
Fixpoint draw_lines (image : Image) (font : Font P) (W : Z)
    (line_height gap stroke : Z) (lines : list str) (y : Z) : Image :=
  match lines with
  | [] => image
  | line :: rest =>
      let bbox := Draw_textbbox P image line font in
      let tw := bbox_right bbox - bbox_left bbox in
      let x := Float.to_int (Float.div_int (W - tw) 2) in
      let image := Draw_text P image (x, y) line font stroke in
      draw_lines image font W line_height gap stroke rest (y + line_height + gap)
  end.

Definition draw_caption_on_image (image : Image) (text position : str) : result bytes :=
  let '(W, H) := size image in
  let base_size := Z.max 24 (Float.to_int (Float.div_int W 12)) in
  let font := first_font font_candidates base_size in
  let lines := wrap_text image font W (upper P text) in
  let line_height :=
    bbox_bottom (Font_getbbox P font (of_ascii "Ay"))
    - bbox_top (Font_getbbox P font (of_ascii "Ay")) in
  let stroke := Z.max 2 (Float.to_int (Float.div_int base_size 12)) in
  let gap := Float.to_int (Float.mul (Float.of_int line_height) (Float.literal 25 100)) in
  let n := Z.of_nat (length lines) in
  let total_h := n * line_height + (n - 1) * gap in
  let y :=
    if eqb position (of_ascii "top") then
      Float.to_int (Float.mul (Float.of_int H) (Float.literal 5 100))
    else if eqb position (of_ascii "center") then
      Float.to_int (Float.div_int (H - total_h) 2)
    else
      H - total_h - Float.to_int (Float.mul (Float.of_int H) (Float.literal 5 100)) in
  let image := draw_lines image font W line_height gap stroke lines y in
  Image_save_JPEG P image 92.

End Caption.

(** ** A small platform

    An implementation of the interface, simple enough to run: ASCII case
    mappings, a file system holding the single asset
    [static/filters/dog.png] (a 4 by 2 overlay), no TrueType font, a fixed
    width default font of 6 by 11 pixels a glyph, and an encoder that writes
    the two JPEG markers around one byte per pixel. *)

Module Small.

Definition lower_char (c : char) : char :=
  if ((65 <=? c) && (c <=? 90))%N then (c + 32)%N else c.

Definition upper_char (c : char) : char :=
  if ((97 <=? c) && (c <=? 122))%N then (c - 32)%N else c.

Definition dog_png : str := of_ascii "static/filters/dog.png".

Definition fill (m : Mode) (sz : Z * Z) (px : list N) : Image :=
  mkImage m sz (repeat px (Z.to_nat (fst sz * snd sz))).

Definition open (path : str) : result Image :=
  if eqb path dog_png then Ok (fill ModeRGBA (4, 2) [255; 255; 255; 128]%N)
  else Raise OSError.

Definition resize (im : Image) (sz : Z * Z) (r : Resample) : result Image :=
  if (1 <=? fst sz) && (1 <=? snd sz)
  then Ok (fill (mode im) sz (hd [] (pixels im)))
  else Raise ValueError.

Definition text_bbox (s : str) : BBox := (0, 0, 6 * Z.of_nat (length s), 11).

Definition paint (im : Image) : Image :=
  mkImage (mode im) (size im) (map (fun _ => [255; 255; 255]%N) (pixels im)).

Definition save_jpeg (im : Image) (quality : Z) : result bytes :=
  match mode im with
  | ModeRGBA => Raise OSError
  | _ =>
      Ok ([Byte.xff; Byte.xd8]
            ++ map (fun _ => Byte.x00) (pixels im)
            ++ [Byte.xff; Byte.xd9])
  end.

Definition platform : Platform :=
  {| Font := unit;
     lower := map lower_char;
     upper := map upper_char;
     path_exists := fun path => eqb path dog_png;
     Image_open := open;
     ImageOps_grayscale := fun im => mkImage ModeL (size im) (pixels im);
     ImageOps_colorize := fun im _ _ => mkImage ModeRGB (size im) (pixels im);
     Image_convert := fun im m => mkImage m (size im) (pixels im);
     Image_filter_GaussianBlur := fun im _ => im;
     Brightness_enhance := fun im _ => im;
     Contrast_enhance := fun im _ => im;
     Image_resize := resize;
     Image_paste := fun im _ _ _ => paint im;
     ImageFont_truetype := fun _ _ => Raise OSError;
     ImageFont_load_default := tt;
     Font_getbbox := fun _ s => text_bbox s;
     Draw_textbbox := fun _ s _ => text_bbox s;
     Draw_text := fun im _ _ _ _ => paint im;
     Image_save_JPEG := save_jpeg |}.

Definition photo (W H : Z) : Image := fill ModeRGB (W, H) [10; 20; 30]%N.

End Small.

(** ** Vocabulary of the statements *)

(** [s] neither starts nor ends with a character satisfying [p]. *)
Definition trimmed (p : char -> bool) (s : str) : Prop :=
  match s with
  | [] => True
  | c :: _ => p c = false /\ p (last s c) = false
  end.

(** The reading of line 181 under which only leading characters go. *)
Definition trims_leading_only (line : str) : Prop :=
  forall st, process_line st line = dispatch_line st (lstrip_chars bullets line).

(** The reading of line 185 under which only leading ['#'] go. *)
Definition hashtag_leading_only (line : str) : Prop :=
  forall st,
    hashtags (process_line st line) =
      hashtags st ++ [lstrip_chars [hash] (strip_chars bullets line)].

(** The lines the loop runs over: none when the reply is absent or empty
    (line 178). *)
Definition raw_lines (text : option str) : list str :=
  match text with
  | None | Some [] => []
  | Some t => split_on newline t
  end.

(** A trimmed line that is neither empty nor a hashtag. *)
Definition is_plain (line : str) : bool :=
  negb (eqb line []) && negb (startswith hash line).

Definition plain_of (lines : list str) : list str :=
  filter is_plain (map (strip_chars bullets) lines).

Definition plain_lines (text : option str) : list str :=
  plain_of (raw_lines text).

Definition with_space (line : str) : str := line ++ [space].

(** The claim on the resize: the new width is exactly half of [W] and the
    new height stands to it exactly as the overlay's height to its width. *)
Definition exact_half_and_aspect (W : Z) (overlay_size : Z * Z) : Prop :=
  exists nw nh,
    overlay_new_size W overlay_size = Ok (nw, nh)
    /\ 2 * nw = W
    /\ nh * fst overlay_size = snd overlay_size * nw.

Definition nonspace (c : char) : bool := negb (isspace c).

(** A word: not empty, no whitespace. *)
Definition word (w : str) : Prop := w <> [] /\ forallb nonspace w = true.

(** The trimmed lines that start with ['#']. *)
Definition tag_lines (text : option str) : list str :=
  filter (startswith hash) (map (strip_chars bullets) (raw_lines text)).

(** Lines 100-101: the rendered width of a piece of text. *)
Definition text_width (P : Platform) (image : Image) (font : Font P) (s : str) : Z :=
  bbox_right (Draw_textbbox P image s font) - bbox_left (Draw_textbbox P image s font).

(** Line 102: the widest a line may be, [int(W * 0.9)]. *)
Definition wrap_limit (W : Z) : Z :=
  Float.to_int (Float.mul (Float.of_int W) (Float.literal 9 10)).

(** A line as the wrapping leaves it: not empty, no whitespace at either
    end, and its words separated by single spaces. *)
Definition single_spaced (line : str) : Prop :=
  line <> [] /\ trimmed isspace line /\ join [space] (split line) = line.

(** The first word of a line. *)
Definition first_word (line : str) : str := hd [] (split line).

(** Every break is forced: a line followed by a space and the first word of
    the next line is wider than the limit. *)
Fixpoint breaks_forced (P : Platform) (image : Image) (font : Font P) (W : Z)
    (lines : list str) : Prop :=
  match lines with
  | l1 :: rest =>
      match rest with
      | l2 :: _ =>
          wrap_limit W < text_width P image font (l1 ++ [space] ++ first_word l2)
      | [] => True
      end
      /\ breaks_forced P image font W rest
  | [] => True
  end.

(** ** The quantities of the caption layout *)

(** Line 84: the font size, from the width of the image. *)
Definition base_size (W : Z) : Z :=
  Z.max 24 (Float.to_int (Float.div_int W 12)).

(** Line 115: the width of the outline. *)
Definition stroke_width (W : Z) : Z :=
  Z.max 2 (Float.to_int (Float.div_int (base_size W) 12)).

(** Line 116: the gap between two lines. *)
Definition line_gap (line_height : Z) : Z :=
  Float.to_int (Float.mul (Float.of_int line_height) (Float.literal 25 100)).

(** Line 117: the height of a block of [n] lines. *)
Definition block_height (n line_height : Z) : Z :=
  n * line_height + (n - 1) * line_gap line_height.

(** Lines 119-124: the ordinate of the first line. *)
Definition start_y (H total_h : Z) (position : str) : Z :=
  if eqb position (of_ascii "top") then
    Float.to_int (Float.mul (Float.of_int H) (Float.literal 5 100))
  else if eqb position (of_ascii "center") then
    Float.to_int (Float.div_int (H - total_h) 2)
  else
    H - total_h
    - Float.to_int (Float.mul (Float.of_int H) (Float.literal 5 100)).

(** Lines 126-132 again, collecting what is drawn instead of drawing it:
    the anchor [(x, y)] and the text of each call of [draw.text]. *)
Fixpoint draw_calls (P : Platform) (image : Image) (font : Font P) (W : Z)
    (line_height gap stroke : Z) (lines : list str) (y : Z)
    : list (Z * Z * str) :=
  match lines with
  | [] => []
  | line :: rest =>
      let bbox := Draw_textbbox P image line font in
      let tw := bbox_right bbox - bbox_left bbox in
      let x := Float.to_int (Float.div_int (W - tw) 2) in
      let image := Draw_text P image (x, y) line font stroke in
      (x, y, line)
        :: draw_calls P image font W line_height gap stroke rest
             (y + line_height + gap)
  end.

(** Performing the calls collected, in order. *)
Definition replay_calls (P : Platform) (font : Font P) (stroke : Z)
    (image : Image) (calls : list (Z * Z * str)) : Image :=
  fold_left
    (fun im c => Draw_text P im (fst (fst c), snd (fst c)) (snd c) font stroke)
    calls image.

(** ** Base64 ([base64.b64encode], RFC 4648) *)

Module Base64.

(** The character of a six-bit value. *)
Definition digit (n : N) : char :=
  if (n <? 26)%N then (65 + n)%N
  else if (n <? 52)%N then (71 + n)%N
  else if (n <? 62)%N then (n - 4)%N
  else if (n =? 62)%N then 43%N
  else 47%N.

(** ['='] *)
Definition pad : char := 61%N.

(** Three bytes give four characters; one or two left over are padded. *)
Fixpoint encode (bs : list N) : str :=
  match bs with
  | [] => []
  | a :: rest1 =>
      match rest1 with
      | [] => [digit (a / 4); digit (a mod 4 * 16); pad; pad]%N
      | b :: rest2 =>
          match rest2 with
          | [] =>
              [digit (a / 4); digit (a mod 4 * 16 + b / 16);
               digit (b mod 16 * 4); pad]%N
          | c :: rest =>
              (digit (a / 4) :: digit (a mod 4 * 16 + b / 16)
               :: digit (b mod 16 * 4 + c / 64) :: digit (c mod 64)
               :: encode rest)%N
          end
      end
  end.

(** [base64.b64encode(raw).decode("utf-8")] *)
Definition b64encode (raw : bytes) : str := encode (map Byte.to_N raw).

(** The six-bit value of a character, the inverse of [digit]. *)
Definition value (c : char) : option N :=
  if ((65 <=? c) && (c <=? 90))%N then Some (c - 65)%N
  else if ((97 <=? c) && (c <=? 122))%N then Some (c - 71)%N
  else if ((48 <=? c) && (c <=? 57))%N then Some (c + 4)%N
  else if (c =? 43)%N then Some 62%N
  else if (c =? 47)%N then Some 63%N
  else None.

(** Decoding, four characters at a time; padding may only end the text. *)
Fixpoint decode (s : str) : option (list N) :=
  match s with
  | [] => Some []
  | c1 :: c2 :: c3 :: c4 :: rest =>
      match value c1, value c2 with
      | Some v1, Some v2 =>
          if (c3 =? pad)%N then
            match rest with
            | [] => if (c4 =? pad)%N then Some [v1 * 4 + v2 / 16]%N else None
            | _ => None
            end
          else
            match value c3 with
            | Some v3 =>
                if (c4 =? pad)%N then
                  match rest with
                  | [] => Some [v1 * 4 + v2 / 16; v2 mod 16 * 16 + v3 / 4]%N
                  | _ => None
                  end
                else
                  match value c4, decode rest with
                  | Some v4, Some tail =>
                      Some ((v1 * 4 + v2 / 16) :: (v2 mod 16 * 16 + v3 / 4)
                            :: (v3 mod 4 * 64 + v4) :: tail)%N
                  | _, _ => None
                  end
            | None => None
            end
      | _, _ => None
      end
  | _ => None
  end.

End Base64.

(** ** The request handlers (lines 26-31 and 139-237) *)

(** An uploaded file: what [read()] returns and its [mimetype], empty when
    the client sent none. *)
Record Upload := mkUpload {
  content : bytes;
  mimetype : str
}.

(** The parts of a request the handlers look at: [request.files["image"]]
    and three fields of [request.form], each possibly absent. *)
Record Request := mkRequest {
  files_image : option Upload;
  form_text : option str;
  form_position : option str;
  form_filter : option str
}.

(** What the handlers call besides the platform: decoding an image from
    bytes, encoding with the default quality, and the model. *)
Record Server := mkServer {
  (** [Image.open(io.BytesIO(raw))], with the decoding the first use triggers *)
  Image_open_bytes : bytes -> result Image;
  (** [image.save(buf, format="JPEG"); buf.getvalue()] *)
  Image_save_JPEG_default : Image -> result bytes;
  (** [client.chat.completions.create(...)] for the data URL given, then
      [resp.choices[0].message.content] *)
  chat_completion_content : str -> result (option str)
}.

(** The JSON bodies. *)
Inductive Body :=
| BodyOk                              (** [{"ok": True}] *)
| BodyError (message : str)           (** [{"error": message}] *)
| BodyException (e : exn)             (** [{"error": str(e)}] *)
| BodySuggestions (s : Suggestions)   (** the three fields *)
| BodyImage (image_base64 : str).     (** [{"image_base64": ...}] *)

Definition Response : Type := Body * Z.

(** Lines 139-140. *)
Definition json_error (message : str) (code : Z) : Response :=
  (BodyError message, code).

(** [x or d] for an optional string: [d] when [x] is absent or empty. *)
Definition or_default (x : option str) (d : str) : str :=
  match x with
  | None | Some [] => d
  | Some s => s
  end.

(** Lines 26-31. *)
Definition file_to_data_url (file_storage : Upload) : str * bytes :=
  let raw := content file_storage in
  let mime := or_default (Some (mimetype file_storage)) (of_ascii "image/png") in
  let b64 := Base64.b64encode raw in
  (of_ascii "data:" ++ mime ++ of_ascii ";base64," ++ b64, raw).

(** Lines 149-199: the handler around the parser. *)
Definition generate_captions_route (S : Server) (rq : Request) : Response :=
  match files_image rq with
  | None => json_error (of_ascii "No image provided") 400
  | Some upload =>
      let '(data_url, _) := file_to_data_url upload in
      match chat_completion_content S data_url with
      | Ok text => (BodySuggestions (generate_captions text), 200)
      | Raise e => (BodyException e, 500)
      end
  end.

(** Lines 214-229: decoding, filter, re-encoding, caption. *)
Definition finalize_pipeline (P : Platform) (S : Server)
    (upload : Upload) (text position filter_name : str) : result bytes :=
  let '(_, raw) := file_to_data_url upload in
  image <- Image_open_bytes S raw ;;
  let image := Image_convert P image ModeRGB in
  image <- apply_filter P image filter_name ;;
  raw_filtered <- Image_save_JPEG_default S image ;;
  image <- Image_open_bytes S raw_filtered ;;
  draw_caption_on_image P image text position.

(** Lines 201-237. *)
Definition finalize_meme (P : Platform) (S : Server) (rq : Request) : Response :=
  match files_image rq with
  | None => json_error (of_ascii "No image provided") 400
  | Some upload =>
      let text := strip (or_default (form_text rq) []) in
      let position :=
        lower P (strip (or_default (form_position rq) (of_ascii "bottom"))) in
      let filter_name := lower P (strip (or_default (form_filter rq) [])) in
      match text with
      | [] => json_error (of_ascii "Missing 'text' field.") 400
      | _ =>
          match finalize_pipeline P S upload text position filter_name with
          | Ok final_bytes => (BodyImage (Base64.b64encode final_bytes), 200)
          | Raise e => (BodyException e, 500)
          end
      end
  end.

(** A server for the small platform: images travel as one byte of width,
    one of height, and one byte per pixel; the model answers with two
    lines. *)
Module SmallServer.

Definition open_bytes (raw : bytes) : result Image :=
  match raw with
  | w :: h :: _ =>
      Ok (Small.photo (Z.of_N (Byte.to_N w)) (Z.of_N (Byte.to_N h)))
  | _ => Raise OSError
  end.

Definition save_default (im : Image) : result bytes :=
  match Byte.of_N (Z.to_N (fst (size im))), Byte.of_N (Z.to_N (snd (size im))) with
  | Some w, Some h => Ok (w :: h :: map (fun _ => Byte.x00) (pixels im))
  | _, _ => Raise ValueError
  end.

Definition server : Server :=
  {| Image_open_bytes := open_bytes;
     Image_save_JPEG_default := save_default;
     chat_completion_content := fun _ =>
       Ok (Some (of_ascii "- A caption" ++ [newline] ++ of_ascii "#tag")) |}.

Definition upload : Upload := mkUpload [Byte.x04; Byte.x03; Byte.x00] [].

End SmallServer.

(** ** A platform with a file outside the asset directory

    The small platform again, except that the only file of its file system
    is [/x.png], at the root. *)

Module Outside.

Definition x_png : str := of_ascii "/x.png".

Definition open (path : str) : result Image :=
  if eqb path x_png then Ok (Small.fill ModeRGBA (4, 2) [255; 255; 255; 128]%N)
  else Raise OSError.

Definition platform : Platform :=
  {| Font := unit;
     lower := map Small.lower_char;
     upper := map Small.upper_char;
     path_exists := fun path => eqb path x_png;
     Image_open := open;
     ImageOps_grayscale := fun im => mkImage ModeL (size im) (pixels im);
     ImageOps_colorize := fun im _ _ => mkImage ModeRGB (size im) (pixels im);
     Image_convert := fun im m => mkImage m (size im) (pixels im);
     Image_filter_GaussianBlur := fun im _ => im;
     Brightness_enhance := fun im _ => im;
     Contrast_enhance := fun im _ => im;
     Image_resize := Small.resize;
     Image_paste := fun im _ _ _ => Small.paint im;
     ImageFont_truetype := fun _ _ => Raise OSError;
     ImageFont_load_default := tt;
     Font_getbbox := fun _ s => Small.text_bbox s;
     Draw_textbbox := fun _ s _ => Small.text_bbox s;
     Draw_text := fun im _ _ _ _ => Small.paint im;
     Image_save_JPEG := Small.save_jpeg |}.

End Outside.


(** * Properties *)

(** ** Strings *)

Lemma eqb_eq a b : eqb a b = true <-> a = b.
Proof. unfold eqb; destruct (list_eq_dec N.eq_dec a b); split; congruence. Qed.

Lemma eqb_neq a b : eqb a b = false <-> a <> b.
Proof. unfold eqb; destruct (list_eq_dec N.eq_dec a b); split; congruence. Qed.

Lemma eqb_refl a : eqb a a = true.
Proof. now apply eqb_eq. Qed.

Section Strip.

Variable p : char -> bool.

Lemma lstrip_by_split s :
  exists pre, s = pre ++ lstrip_by p s /\ forallb p pre = true.
Proof.
  induction s as [|c s [pre [E A]]]; simpl.
  - exists []; auto.
  - destruct (p c) eqn:Hc.
    + exists (c :: pre); simpl; rewrite Hc, A; split; [f_equal|]; auto.
    + exists []; auto.
Qed.

Lemma lstrip_by_head s :
  match lstrip_by p s with [] => True | c :: _ => p c = false end.
Proof.
  induction s as [|c s IH]; simpl; auto.
  destruct (p c) eqn:Hc; auto.
Qed.

Lemma rstrip_by_split s :
  exists post, s = rstrip_by p s ++ post /\ forallb p post = true.
Proof.
  induction s as [|c s [post [E A]]]; simpl.
  - exists []; auto.
  - destruct (rstrip_by p s) as [|d r] eqn:R.
    + destruct (p c) eqn:Hc.
      * exists (c :: post); simpl in *; rewrite Hc, A; subst; auto.
      * exists post; simpl in *; subst; auto.
    + exists post; split; auto. simpl; f_equal; auto.
Qed.

Lemma rstrip_by_last s d :
  match rstrip_by p s with [] => True | c :: r => p (last (c :: r) d) = false end.
Proof.
  induction s as [|c s IH]; simpl; auto.
  destruct (rstrip_by p s) as [|e r] eqn:R.
  - destruct (p c) eqn:Hc; simpl; auto.
  - exact IH.
Qed.

Lemma rstrip_by_hd s :
  match rstrip_by p s with
  | [] => True
  | c :: _ => exists s', s = c :: s'
  end.
Proof.
  destruct s as [|c s]; simpl; auto.
  destruct (rstrip_by p s); [destruct (p c)|]; simpl; eauto.
Qed.

Lemma rstrip_by_idem s : rstrip_by p (rstrip_by p s) = rstrip_by p s.
Proof.
  induction s as [|c s IH]; simpl; auto.
  destruct (rstrip_by p s) as [|e r] eqn:R.
  - destruct (p c) eqn:Hc; simpl; auto. now rewrite Hc.
  - change (rstrip_by p (c :: e :: r)) with
      (match rstrip_by p (e :: r) with [] => if p c then [] else [c] | x => c :: x end).
    now rewrite IH.
Qed.

Lemma strip_by_trimmed s : trimmed p (strip_by p s).
Proof.
  unfold strip_by, trimmed.
  pose proof (lstrip_by_head s) as Hh.
  pose proof (rstrip_by_hd (lstrip_by p s)) as Hd.
  destruct (rstrip_by p (lstrip_by p s)) as [|c r] eqn:R; auto.
  split.
  - destruct Hd as [s' E]. rewrite E in Hh. exact Hh.
  - pose proof (rstrip_by_last (lstrip_by p s) c) as Hl. now rewrite R in Hl.
Qed.

(** [strip] removes a run of [p]-characters at each end and nothing else;
    what is left has no [p]-character at either end. *)
Lemma strip_by_split s :
  exists pre post,
    s = pre ++ strip_by p s ++ post
    /\ forallb p pre = true /\ forallb p post = true
    /\ trimmed p (strip_by p s).
Proof.
  destruct (lstrip_by_split s) as [pre [E A]].
  destruct (rstrip_by_split (lstrip_by p s)) as [post [E' A']].
  exists pre, post. repeat split; auto using strip_by_trimmed.
  unfold strip_by. now rewrite <- E'.
Qed.

Lemma strip_by_all s : forallb p s = true -> strip_by p s = [].
Proof.
  unfold strip_by. induction s as [|c s IH]; simpl; auto.
  intros H. apply andb_true_iff in H as [Hc Hs]. rewrite Hc. auto.
Qed.

End Strip.

(** ** The suggestion parser *)

(** One iteration trims the line, then dispatches on what is left. *)
Lemma process_line_dispatch st line :
  process_line st line = dispatch_line st (strip_chars bullets line).
Proof. reflexivity. Qed.

Lemma dispatch_hashtag st line :
  startswith hash line = true ->
  dispatch_line st line =
    mkSuggestions (captions st) (hashtags st ++ [strip_chars [hash] line])
                  (description st).
Proof.
  intros H. destruct line as [|c l]; [discriminate|].
  unfold dispatch_line. now rewrite H.
Qed.

(** C4, refuted as stated: on the line ["- wow -"] the loop works on
    ["wow"], not on ["wow -"]; the trailing dash and space are removed
    too. *)
Lemma C4_trailing_bullets_removed :
  ~ trims_leading_only (of_ascii "- wow -")
  /\ captions (process_line no_suggestions (of_ascii "- wow -")) = [of_ascii "wow"]
  /\ lstrip_chars bullets (of_ascii "- wow -") = of_ascii "wow -".
Proof.
  split; [|split; reflexivity].
  intros H. specialize (H no_suggestions). vm_compute in H. discriminate.
Qed.

(** C4, amended: every line is pre-processed by removing the characters
    ['-'], ['•'] and [' '] from both of its ends: the line is
    [pre ++ core ++ post] where [pre] and [post] consist of these
    characters only, [core] neither starts nor ends with one of them, and
    the rest of the loop body sees [core] alone. *)
Theorem C4_trim_both_ends (st : Suggestions) (line : str) :
  exists pre core post,
    line = pre ++ core ++ post
    /\ forallb (mem bullets) pre = true
    /\ forallb (mem bullets) post = true
    /\ trimmed (mem bullets) core
    /\ process_line st line = dispatch_line st core.
Proof.
  destruct (strip_by_split (mem bullets) line) as [pre [post [E [A [B T]]]]].
  exists pre, (strip_chars bullets line), post. repeat split; auto.
Qed.

(** C3, refuted as stated: the line ["#fun#"] is recorded as ["fun"], not as
    ["fun#"]. *)
Lemma C3_trailing_hash_removed :
  ~ hashtag_leading_only (of_ascii "#fun#")
  /\ hashtags (process_line no_suggestions (of_ascii "#fun#")) = [of_ascii "fun"].
Proof.
  split; [|reflexivity].
  intros H. specialize (H no_suggestions). vm_compute in H. discriminate.
Qed.

(** C3, amended: for a line that starts with ['#'] once trimmed, the entry
    appended to the hashtags is the line without the ['#'] characters at its
    two ends: the trimmed line is [pre ++ tag ++ post] with [pre] and [post]
    runs of ['#'], [tag] neither starts nor ends with ['#'] and keeps every
    character in between, and [tag] is what is appended. *)
Theorem C3_hashtag_strip_both_ends (st : Suggestions) (line : str) :
  startswith hash (strip_chars bullets line) = true ->
  exists pre tag post,
    strip_chars bullets line = pre ++ tag ++ post
    /\ forallb (N.eqb hash) pre = true
    /\ forallb (N.eqb hash) post = true
    /\ trimmed (N.eqb hash) tag
    /\ process_line st line =
         mkSuggestions (captions st) (hashtags st ++ [tag]) (description st).
Proof.
  intros H.
  set (l := strip_chars bullets line) in *.
  destruct (strip_by_split (mem [hash]) l) as [pre [post [E [A [B T]]]]].
  assert (M : forall c, mem [hash] c = N.eqb hash c).
  { intros c. unfold mem; simpl. rewrite orb_false_r. apply N.eqb_sym. }
  assert (F : forall s, forallb (mem [hash]) s = forallb (N.eqb hash) s).
  { induction s as [|c s IH]; cbn [forallb]; [|rewrite M, IH]; reflexivity. }
  exists pre, (strip_chars [hash] l), post. repeat split.
  - exact E.
  - now rewrite <- F.
  - now rewrite <- F.
  - unfold strip_chars. unfold trimmed in *.
    destruct (strip_by (mem [hash]) l); auto. now rewrite <- !M.
  - rewrite process_line_dispatch. now apply dispatch_hashtag.
Qed.

Lemma C3_hashtag_strip_both_ends_witness :
  exists pre tag post,
    strip_chars bullets (of_ascii "- ##a#b## ") = pre ++ tag ++ post
    /\ forallb (N.eqb hash) pre = true
    /\ forallb (N.eqb hash) post = true
    /\ trimmed (N.eqb hash) tag
    /\ process_line no_suggestions (of_ascii "- ##a#b## ") =
         mkSuggestions [] ([] ++ [tag]) [].
Proof.
  apply (C3_hashtag_strip_both_ends no_suggestions (of_ascii "- ##a#b## ")).
  reflexivity.
Defined.

Lemma strip_hash_repeat n : strip_chars [hash] (repeat hash n) = [].
Proof.
  apply strip_by_all. induction n; simpl; auto.
Qed.

(** C10: a line that, once trimmed, consists of ['#'] characters only (at
    least one) appends the empty string to the hashtags; it is not
    skipped. *)
Theorem C10_all_hash_line_empty_hashtag (st : Suggestions) (line : str) (n : nat) :
  strip_chars bullets line = repeat hash (S n) ->
  process_line st line =
    mkSuggestions (captions st) (hashtags st ++ [[]]) (description st).
Proof.
  intros H. rewrite process_line_dispatch, H.
  rewrite dispatch_hashtag by reflexivity.
  now rewrite strip_hash_repeat.
Qed.

Lemma C10_all_hash_line_empty_hashtag_witness :
  process_line no_suggestions (of_ascii "- ###") =
    mkSuggestions [] ([] ++ [[]]) [].
Proof.
  apply (C10_all_hash_line_empty_hashtag no_suggestions (of_ascii "- ###") 2).
  reflexivity.
Defined.

Lemma generate_captions_fold text :
  generate_captions text =
    let st := fold_left process_line (raw_lines text) no_suggestions in
    mkSuggestions (captions st) (hashtags st) (strip (description st)).
Proof. destruct text as [[|c t]|]; reflexivity. Qed.

Lemma dispatch_plain st line :
  is_plain line = true ->
  dispatch_line st line =
    if (length (captions st) <? 3)%nat
    then mkSuggestions (captions st ++ [line]) (hashtags st) (description st)
    else mkSuggestions (captions st) (hashtags st)
                       (description st ++ with_space line).
Proof.
  unfold is_plain. intros H. apply andb_true_iff in H as [H1 H2].
  apply negb_true_iff in H1, H2. apply eqb_neq in H1.
  destruct line as [|c l]; [congruence|].
  unfold dispatch_line. rewrite H2.
  destruct (Nat.ltb_spec (length (captions st)) 3);
    destruct (Z.ltb_spec (Z.of_nat (length (captions st))) 3); auto; lia.
Qed.

Lemma dispatch_not_plain st line :
  is_plain line = false ->
  captions (dispatch_line st line) = captions st
  /\ description (dispatch_line st line) = description st.
Proof.
  unfold is_plain. intros H.
  destruct line as [|c l]; [auto|].
  unfold dispatch_line.
  destruct (startswith hash (c :: l)) eqn:S; [auto|].
  rewrite andb_true_r in H. apply negb_false_iff, eqb_eq in H. discriminate.
Qed.

(** The loop invariant: the captions grow by plain lines until there are
    three, and every later plain line goes to the description. *)
Lemma fold_process_line lines : forall st,
  (length (captions st) <= 3)%nat ->
  let k := (3 - length (captions st))%nat in
  let r := fold_left process_line lines st in
  captions r = captions st ++ firstn k (plain_of lines)
  /\ description r =
       description st ++ concat (map with_space (skipn k (plain_of lines))).
Proof.
  induction lines as [|l lines IH]; intros st Hlen; cbn zeta.
  - simpl. rewrite firstn_nil, skipn_nil, !app_nil_r. auto.
  - cbn [fold_left]. unfold plain_of in *. cbn [map filter].
    rewrite process_line_dispatch.
    destruct (is_plain (strip_chars bullets l)) eqn:Pl.
    + rewrite (dispatch_plain _ _ Pl).
      destruct (Nat.ltb_spec (length (captions st)) 3) as [Hlt|Hge].
      * specialize (IH (mkSuggestions (captions st ++ [strip_chars bullets l])
                          (hashtags st) (description st))).
        cbn [captions description] in IH. rewrite length_app in IH. cbn [length] in IH.
        destruct IH as [IH1 IH2]; [lia|].
        replace (3 - length (captions st))%nat
          with (S (3 - (length (captions st) + 1)))%nat by lia.
        cbn [firstn skipn]. rewrite IH1, IH2, <- app_assoc. auto.
      * specialize (IH (mkSuggestions (captions st) (hashtags st)
                          (description st ++ with_space (strip_chars bullets l)))).
        cbn [captions description] in IH.
        destruct IH as [IH1 IH2]; [lia|].
        replace (3 - length (captions st))%nat with 0%nat in * by lia.
        cbn [firstn skipn map concat] in *.
        rewrite IH1, IH2, <- app_assoc. auto.
    + destruct (dispatch_not_plain st _ Pl) as [E1 E2].
      specialize (IH (dispatch_line st (strip_chars bullets l))).
      rewrite E1, E2 in IH. apply IH. exact Hlen.
Qed.

(** An empty or absent reply gives three empty fields. *)
Example generate_captions_empty :
  generate_captions (Some []) = no_suggestions
  /\ generate_captions None = no_suggestions.
Proof. split; reflexivity. Qed.

(** With two captions, two hashtags and one more plain line, that line is
    the third caption and the description stays empty. *)
Example generate_captions_sample :
  generate_captions
    (Some (of_ascii "Caption one" ++ [newline] ++ of_ascii "Caption two"
           ++ [newline] ++ of_ascii "#funny" ++ [newline] ++ of_ascii "#meme"
           ++ [newline] ++ of_ascii "A short description here"))
  = mkSuggestions (map of_ascii ["Caption one"; "Caption two";
                                 "A short description here"])
                  (map of_ascii ["funny"; "meme"]) [].
Proof. reflexivity. Qed.

(** [strip] also removes whitespace in front of the description: a tab is
    not one of the characters trimmed from a line. *)
Example generate_captions_leading_tab :
  description
    (generate_captions
       (Some (of_ascii "a" ++ [newline] ++ of_ascii "b" ++ [newline]
              ++ of_ascii "c" ++ [newline] ++ [9%N] ++ of_ascii "d e")))
  = of_ascii "d e".
Proof. reflexivity. Qed.

(** C5: whatever the reply, at most three captions are returned: the
    captions are the first three plain lines (trimmed, non-empty, not
    starting with ['#']), every later plain line is appended to the
    description followed by a space, and the description returned is that
    accumulation passed through [strip], so it carries no trailing
    whitespace. *)
Theorem C5_at_most_three_captions (text : option str) :
  let r := generate_captions text in
  (length (captions r) <= 3)%nat
  /\ captions r = firstn 3 (plain_lines text)
  /\ description r = strip (concat (map with_space (skipn 3 (plain_lines text))))
  /\ rstrip (description r) = description r.
Proof.
  cbn zeta. rewrite generate_captions_fold. cbn zeta. cbn [captions description].
  destruct (fold_process_line (raw_lines text) no_suggestions) as [E1 E2];
    [simpl; lia|].
  cbn [no_suggestions captions description length app Nat.sub] in E1, E2.
  rewrite E1, E2. unfold plain_lines. repeat split.
  - rewrite length_firstn. lia.
  - unfold strip, rstrip, strip_by. apply rstrip_by_idem.
Qed.

(** ** Floating point *)

Section FloatError.

Import Float.

(** The literals [0.9] and [0.1] are the binary64 numbers
    [0x1.ccccccccccccdp-1] and [0x1.999999999999ap-4], and
    [int(100 * (29 / 100))] is 28. *)
Example literal_0_9 : literal 9 10 = mk 8106479329266893 (-53).
Proof. reflexivity. Qed.

Example literal_0_1 : literal 1 10 = mk 7205759403792794 (-56).
Proof. reflexivity. Qed.

Example int_100_times_29_over_100 :
  to_int (mul (of_int 100) (div_int 29 100)) = 28.
Proof. reflexivity. Qed.

Example int_minus_7_over_2 : to_int (div_int (-7) 2) = -3.
Proof. reflexivity. Qed.

Lemma rne_shift_error (n d : Z) :
  0 <= n -> 0 < d ->
  0 <= rne_shift n d
  /\ 2 * (rne_shift n d * 2 ^ d - n) <= 2 ^ d
  /\ 2 * (n - rne_shift n d * 2 ^ d) <= 2 ^ d.
Proof.
  intros Hn Hd. unfold rne_shift.
  assert (Hp : 2 ^ d = 2 * 2 ^ (d - 1)).
  { rewrite <- Z.pow_succ_r by lia. f_equal. lia. }
  assert (Hh : 0 < 2 ^ (d - 1)) by (apply Z.pow_pos_nonneg; lia).
  pose proof (Z.div_mod n (2 ^ d) ltac:(lia)) as E.
  pose proof (Z.mod_pos_bound n (2 ^ d) ltac:(lia)) as B.
  assert (Hq : 0 <= n / 2 ^ d) by (apply Z.div_pos; lia).
  set (q := n / 2 ^ d) in *. set (r := n mod 2 ^ d) in *.
  set (h := 2 ^ (d - 1)) in *. set (p := 2 ^ d) in *.
  assert (E1 : (q + 1) * p = p * q + p) by ring.
  assert (E2 : q * p = p * q) by ring.
  destruct (Z.ltb_spec r h); [rewrite E2; lia|].
  destruct (Z.ltb_spec h r); [rewrite E1; lia|].
  destruct (Z.even q); [rewrite E2 | rewrite E1]; lia.
Qed.

Lemma round_error (m e : Z) :
  0 <= m ->
  exists t,
    0 <= t /\ Fexp (round m e) = e + t /\ 0 <= Fnum (round m e)
    /\ (u53 - 1) * m <= u53 * (Fnum (round m e) * 2 ^ t) <= (u53 + 1) * m.
Proof.
  intros Hm. unfold round. rewrite (Z.abs_eq m Hm).
  destruct (Z.leb_spec (Z.log2 m + 1 - prec) 0) as [Hd|Hd].
  - exists 0. cbn [Fnum Fexp]. rewrite Z.mul_1_r. unfold u53. lia.
  - set (d := Z.log2 m + 1 - prec) in *.
    assert (Hpos : 0 < m).
    { destruct (Z.eq_dec m 0) as [->|]; [|lia]. unfold d, prec in Hd. simpl in Hd. lia. }
    exists d. cbn [Fnum Fexp]. rewrite (Z.sgn_pos m Hpos), Z.mul_1_l.
    destruct (rne_shift_error m d Hm Hd) as [H0 [H1 H2]].
    pose proof (Z.log2_spec m Hpos) as [L _].
    assert (Ld : Z.log2 m = d + 52) by (unfold d, prec; lia).
    rewrite Ld, Z.pow_add_r in L by lia.
    change (2 ^ 52) with 4503599627370496 in L.
    unfold u53. change (2 ^ 53) with 9007199254740992.
    set (p := 2 ^ d) in *. set (v := rne_shift m d * p) in *.
    repeat split; lia.
Qed.

Lemma div_int_error (a b : Z) :
  0 < a -> 0 < b ->
  exists k t,
    0 <= k /\ 0 <= t /\ Fexp (div_int a b) = t - k /\ 0 <= Fnum (div_int a b)
    /\ (u53 - 1) * (2 ^ 56 - 1) * (a * 2 ^ k)
       <= u53 * 2 ^ 56 * (Fnum (div_int a b) * 2 ^ t * b)
       <= (u53 + 1) * (2 ^ 56 + 1) * (a * 2 ^ k).
Proof.
  intros Ha Hb. unfold div_int.
  rewrite (Z.abs_eq a), (Z.abs_eq b), (Z.sgn_pos a), (Z.sgn_pos b) by lia.
  rewrite !Z.mul_1_l.
  set (k := Z.max 0 (56 + Z.log2 b - Z.log2 a)).
  assert (Hk : 0 <= k) by (unfold k; lia).
  assert (Hpk : 0 < 2 ^ k) by (apply Z.pow_pos_nonneg; lia).
  pose proof (Z.div_mod (a * 2 ^ k) b ltac:(lia)) as E.
  pose proof (Z.mod_pos_bound (a * 2 ^ k) b Hb) as B.
  assert (Hq : 0 <= a * 2 ^ k / b) by (apply Z.div_pos; lia).
  set (q := a * 2 ^ k / b) in *. set (r := (a * 2 ^ k) mod b) in *.
  set (sticky := if r =? 0 then 0 else 1).
  set (m := 2 * q + sticky).
  assert (Hs : 0 <= sticky <= 1) by (unfold sticky; destruct (r =? 0); lia).
  assert (Hm : 0 <= m) by (unfold m; lia).
  (* the quotient with its sticky bit is within [b] of the scaled dividend *)
  assert (Y : a * 2 ^ (k + 1) - b <= m * b <= a * 2 ^ (k + 1) + b).
  { rewrite Z.pow_add_r, Z.pow_1_r by lia.
    replace (a * (2 ^ k * 2)) with (2 * (a * 2 ^ k)) by ring. rewrite E.
    replace (m * b) with (2 * (b * q) + sticky * b) by (unfold m; ring).
    unfold sticky. destruct (Z.eqb_spec r 0); lia. }
  (* the scaled dividend is large *)
  assert (Big : 2 ^ 56 * b <= a * 2 ^ (k + 1)).
  { pose proof (Z.log2_spec a Ha) as [La _].
    pose proof (Z.log2_spec b Hb) as [_ Lb].
    assert (P : 2 ^ (56 + Z.log2 b) <= 2 ^ (Z.log2 a + k)).
    { apply Z.pow_le_mono_r; [lia|]. unfold k. lia. }
    pose proof (Z.log2_nonneg a). pose proof (Z.log2_nonneg b).
    rewrite !Z.pow_add_r in P by lia.
    rewrite Z.pow_add_r, Z.pow_1_r by lia.
    unfold Z.succ in Lb. rewrite Z.pow_add_r, Z.pow_1_r in Lb by lia.
    assert (2 ^ Z.log2 a * 2 ^ k <= a * 2 ^ k) by (apply Z.mul_le_mono_nonneg_r; lia).
    change (2 ^ 56) with 72057594037927936 in *. lia. }
  destruct (round_error m (- (k + 1)) Hm) as [t [Ht [Fe [Fn Bd]]]].
  exists (k + 1), t. repeat split; try lia.
  - assert (M : (u53 - 1) * (m * b) <= u53 * (Fnum (round m (- (k + 1))) * 2 ^ t * b)).
    { replace (u53 * (Fnum (round m (- (k + 1))) * 2 ^ t * b))
        with (u53 * (Fnum (round m (- (k + 1))) * 2 ^ t) * b) by ring.
      replace ((u53 - 1) * (m * b)) with ((u53 - 1) * m * b) by ring.
      apply Z.mul_le_mono_nonneg_r; lia. }
    unfold u53 in *. change (2 ^ 53) with 9007199254740992 in *.
    change (2 ^ 56) with 72057594037927936 in *.
    set (V := Fnum (round m (- (k + 1))) * 2 ^ t * b) in *.
    set (X := a * 2 ^ (k + 1)) in *. lia.
  - assert (M : u53 * (Fnum (round m (- (k + 1))) * 2 ^ t * b) <= (u53 + 1) * (m * b)).
    { replace (u53 * (Fnum (round m (- (k + 1))) * 2 ^ t * b))
        with (u53 * (Fnum (round m (- (k + 1))) * 2 ^ t) * b) by ring.
      replace ((u53 + 1) * (m * b)) with ((u53 + 1) * m * b) by ring.
      apply Z.mul_le_mono_nonneg_r; lia. }
    unfold u53 in *. change (2 ^ 53) with 9007199254740992 in *.
    change (2 ^ 56) with 72057594037927936 in *.
    set (V := Fnum (round m (- (k + 1))) * 2 ^ t * b) in *.
    set (X := a * 2 ^ (k + 1)) in *. lia.
Qed.

Lemma to_int_bounds (f : float) (k T : Z) :
  0 <= Fnum f -> 0 <= k -> 0 <= T -> Fexp f = T - k ->
  to_int f * 2 ^ k <= Fnum f * 2 ^ T < (to_int f + 1) * 2 ^ k.
Proof.
  intros Hf Hk HT E. unfold to_int. rewrite E.
  assert (Pk : 0 < 2 ^ k) by (apply Z.pow_pos_nonneg; lia).
  destruct (Z.leb_spec 0 (T - k)) as [H|H].
  - replace (2 ^ T) with (2 ^ (T - k) * 2 ^ k)
      by (rewrite <- Z.pow_add_r by lia; f_equal; lia).
    set (g := 2 ^ (T - k)). set (K := 2 ^ k) in *.
    replace ((Fnum f * g + 1) * K) with (Fnum f * (g * K) + K) by ring.
    replace (Fnum f * g * K) with (Fnum f * (g * K)) by ring. lia.
  - replace (- (T - k)) with (k - T) by lia.
    assert (Pg : 0 < 2 ^ (k - T)) by (apply Z.pow_pos_nonneg; lia).
    assert (PT : 0 < 2 ^ T) by (apply Z.pow_pos_nonneg; lia).
    rewrite Z.quot_div_nonneg by lia.
    replace (2 ^ k) with (2 ^ (k - T) * 2 ^ T)
      by (rewrite <- Z.pow_add_r by lia; f_equal; lia).
    pose proof (Z.div_mod (Fnum f) (2 ^ (k - T)) ltac:(lia)) as D.
    pose proof (Z.mod_pos_bound (Fnum f) (2 ^ (k - T)) Pg) as B.
    set (g := 2 ^ (k - T)) in *. set (q := Fnum f / g) in *.
    set (r := Fnum f mod g) in *. set (p := 2 ^ T) in *.
    rewrite D. split.
    + replace (q * (g * p)) with ((g * q) * p) by ring.
      apply Z.mul_le_mono_nonneg_r; lia.
    + replace ((q + 1) * (g * p)) with ((g * q + g) * p) by ring.
      apply Z.mul_lt_mono_pos_r; lia.
Qed.

Lemma scaled_height (s a b : Z) :
  0 <= s -> 0 < a -> 0 < b -> s * a < 2 ^ 50 ->
  let nh := to_int (mul (of_int s) (div_int a b)) in
  nh * b <= s * a <= (nh + 1) * b.
Proof.
  intros Hs Ha Hb HE nh.
  destruct (round_error s 0 Hs) as [t0 [Ht0 [E0 [F0 B0]]]].
  fold (of_int s) in E0, F0, B0.
  destruct (div_int_error a b Ha Hb) as [k [t1 [Hk [Ht1 [E1 [F1 B1]]]]]].
  assert (Hm : 0 <= Fnum (of_int s) * Fnum (div_int a b))
    by (apply Z.mul_nonneg_nonneg; lia).
  destruct (round_error _ (Fexp (of_int s) + Fexp (div_int a b)) Hm)
    as [t2 [Ht2 [E2 [F2 B2]]]].
  change (round (Fnum (of_int s) * Fnum (div_int a b))
            (Fexp (of_int s) + Fexp (div_int a b)))
    with (mul (of_int s) (div_int a b)) in E2, F2, B2.
  set (f := mul (of_int s) (div_int a b)) in *.
  set (S0 := Fnum (of_int s)) in *. set (A1 := Fnum (div_int a b)) in *.
  set (M2 := Fnum f) in *.
  assert (Ef : Fexp f = (t0 + t1 + t2) - k) by lia.
  pose proof (to_int_bounds f k (t0 + t1 + t2) F2 Hk ltac:(lia) Ef) as TB.
  fold nh in TB. fold M2 in TB.
  assert (P0 : 0 < 2 ^ t0) by (apply Z.pow_pos_nonneg; lia).
  assert (P1 : 0 < 2 ^ t1) by (apply Z.pow_pos_nonneg; lia).
  assert (P2 : 0 < 2 ^ t2) by (apply Z.pow_pos_nonneg; lia).
  assert (Pk : 0 < 2 ^ k) by (apply Z.pow_pos_nonneg; lia).
  rewrite !Z.pow_add_r in TB by lia.
  set (p0 := 2 ^ t0) in *. set (p1 := 2 ^ t1) in *. set (p2 := 2 ^ t2) in *.
  set (K := 2 ^ k) in *.
  set (Sx := S0 * p0) in *. set (Ax := A1 * p1 * b) in *.
  set (X := a * K) in *.
  (* the scaled product, times [b] *)
  set (Z1 := M2 * (p0 * p1 * p2) * b).
  assert (R : M2 * p2 * (p0 * p1 * b) = Z1) by (unfold Z1; ring).
  assert (Q : S0 * A1 * (p0 * p1 * b) = Sx * Ax) by (unfold Sx, Ax; ring).
  assert (G : 0 <= p0 * p1 * b) by (apply Z.mul_nonneg_nonneg; nia).
  assert (Up : u53 * Z1 <= (u53 + 1) * (Sx * Ax)).
  { rewrite <- R, <- Q.
    replace (u53 * (M2 * p2 * (p0 * p1 * b))) with (u53 * (M2 * p2) * (p0 * p1 * b)) by ring.
    replace ((u53 + 1) * (S0 * A1 * (p0 * p1 * b)))
      with ((u53 + 1) * (S0 * A1) * (p0 * p1 * b)) by ring.
    apply Z.mul_le_mono_nonneg_r; lia. }
  assert (Lo : (u53 - 1) * (Sx * Ax) <= u53 * Z1).
  { rewrite <- R, <- Q.
    replace (u53 * (M2 * p2 * (p0 * p1 * b))) with (u53 * (M2 * p2) * (p0 * p1 * b)) by ring.
    replace ((u53 - 1) * (S0 * A1 * (p0 * p1 * b)))
      with ((u53 - 1) * (S0 * A1) * (p0 * p1 * b)) by ring.
    apply Z.mul_le_mono_nonneg_r; lia. }
  assert (HSx : 0 <= Sx) by (unfold Sx; nia).
  assert (HAx : 0 <= Ax) by (unfold Ax; apply Z.mul_nonneg_nonneg; nia).
  assert (HX : 0 <= X) by (unfold X; nia).
  assert (Up2 : (u53 * Sx) * (u53 * 2 ^ 56 * Ax)
                <= ((u53 + 1) * s) * ((u53 + 1) * (2 ^ 56 + 1) * X)).
  { apply Z.mul_le_mono_nonneg; unfold u53 in *; lia. }
  assert (Lo2 : ((u53 - 1) * s) * ((u53 - 1) * (2 ^ 56 - 1) * X)
                <= (u53 * Sx) * (u53 * 2 ^ 56 * Ax)).
  { apply Z.mul_le_mono_nonneg; unfold u53 in *; lia. }
  (* from the truncation *)
  assert (T1 : nh * b * K <= Z1).
  { unfold Z1. replace (nh * b * K) with (nh * K * b) by ring.
    apply Z.mul_le_mono_nonneg_r; lia. }
  assert (T2 : Z1 < (nh + 1) * b * K).
  { unfold Z1. replace ((nh + 1) * b * K) with ((nh + 1) * K * b) by ring.
    apply Z.mul_lt_mono_pos_r; lia. }
  assert (EX : s * X = s * a * K) by (unfold X; ring).
  set (SA := Sx * Ax) in *.
  replace (u53 * Sx * (u53 * 2 ^ 56 * Ax)) with (u53 * u53 * 2 ^ 56 * SA) in Up2, Lo2
    by (unfold SA; ring).
  replace ((u53 + 1) * s * ((u53 + 1) * (2 ^ 56 + 1) * X))
    with ((u53 + 1) * (u53 + 1) * (2 ^ 56 + 1) * (s * a * K)) in Up2
    by (rewrite <- EX; ring).
  replace ((u53 - 1) * s * ((u53 - 1) * (2 ^ 56 - 1) * X))
    with ((u53 - 1) * (u53 - 1) * (2 ^ 56 - 1) * (s * a * K)) in Lo2
    by (rewrite <- EX; ring).
  set (E := s * a) in *.
  assert (HE0 : 0 <= E) by (unfold E; nia).
  split.
  - assert (C : nh * b * K < (E + 1) * K).
    { replace ((E + 1) * K) with (E * K + K) by ring.
      unfold u53 in *. change (2 ^ 53) with 9007199254740992 in *.
      change (2 ^ 56) with 72057594037927936 in *.
      change (2 ^ 50) with 1125899906842624 in *.
      assert (EK : E * K < 1125899906842624 * K)
        by (apply Z.mul_lt_mono_pos_r; lia).
      set (EK' := E * K) in *. set (NK := nh * b * K) in *. lia. }
    apply Z.mul_lt_mono_pos_r in C; lia.
  - assert (C : (E - 1) * K < (nh + 1) * b * K).
    { replace ((E - 1) * K) with (E * K - K) by ring.
      unfold u53 in *. change (2 ^ 53) with 9007199254740992 in *.
      change (2 ^ 56) with 72057594037927936 in *.
      change (2 ^ 50) with 1125899906842624 in *.
      assert (EK : E * K < 1125899906842624 * K)
        by (apply Z.mul_lt_mono_pos_r; lia).
      set (EK' := E * K) in *. set (NK := (nh + 1) * b * K) in *. lia. }
    apply Z.mul_lt_mono_pos_r in C; lia.
Qed.

Lemma to_int_mul_div_zero (x : float) (b : Z) : to_int (mul x (div_int 0 b)) = 0.
Proof.
  unfold div_int. cbn [Z.abs Z.sgn Z.mul].
  unfold round at 1. cbn [Z.abs Z.log2 Z.add Z.sub Z.opp prec Z.leb Z.compare Z.pos_sub].
  cbv iota. unfold mul. cbn [Fnum Fexp]. rewrite Z.mul_0_r.
  unfold round. cbn [Z.abs Z.log2 Z.add Z.sub Z.opp prec Z.leb Z.compare Z.pos_sub].
  cbv iota. unfold to_int. cbn [Fnum Fexp].
  destruct (0 <=? _); reflexivity.
Qed.

(** The height computed in floating point, against the exact quotient. *)
Lemma overlay_height_bounds (s a b : Z) :
  0 <= s -> 0 <= a -> 0 < b -> s * a < 2 ^ 50 ->
  let nh := to_int (mul (of_int s) (div_int a b)) in
  s * a / b - 1 <= nh <= s * a / b
  /\ ((s * a) mod b <> 0 -> nh = s * a / b).
Proof.
  intros Hs Ha Hb HE nh.
  assert (B : nh * b <= s * a <= (nh + 1) * b).
  { destruct (Z.eq_dec a 0) as [->|Hne].
    - unfold nh. rewrite to_int_mul_div_zero. lia.
    - apply scaled_height; lia. }
  assert (U : nh <= s * a / b) by (apply Z.div_le_lower_bound; lia).
  assert (L : s * a / b <= nh + 1) by (apply Z.div_le_upper_bound; lia).
  split; [lia|].
  intros M.
  assert (S : s * a < (nh + 1) * b).
  { destruct (Z.eq_dec (s * a) ((nh + 1) * b)) as [E|]; [|lia].
    exfalso. apply M. rewrite E. apply Z.mod_mul. lia. }
  assert (s * a / b < nh + 1) by (apply Z.div_lt_upper_bound; lia).
  lia.
Qed.

End FloatError.

(** ** The filter engine *)

Lemma small_platform_laws : PlatformLaws Small.platform.
Proof.
  constructor; try reflexivity.
  - intros im sz r im'. unfold Small.platform, Image_resize, Small.resize.
    destruct ((1 <=? fst sz) && (1 <=? snd sz)); [|discriminate].
    intros H; inversion H; reflexivity.
  - intros s H. cbn [upper Small.platform].
    induction s as [|c s IH]; [reflexivity|].
    cbn [map forallb] in *. apply andb_true_iff in H as [Hc Hs].
    rewrite (IH Hs), andb_true_r.
    unfold Small.upper_char.
    destruct ((97 <=? c) && (c <=? 122))%N eqn:R; [|exact Hc].
    exfalso. unfold isspace in Hc.
    apply andb_true_iff in R as [R1 R2].
    apply N.leb_le in R1, R2.
    repeat (apply orb_true_iff in Hc as [Hc|Hc]);
      repeat match goal with
        | H : (_ && _)%bool = true |- _ => apply andb_true_iff in H as [? ?]
        | H : (_ <=? _)%N = true |- _ => apply N.leb_le in H
        | H : (_ =? _)%N = true |- _ => apply N.eqb_eq in H
        end; lia.
Qed.


Lemma not_builtin_eqb (n : str) :
  ~ In n builtin_filters <->
  eqb n (of_ascii "grayscale") = false /\ eqb n (of_ascii "sepia") = false
  /\ eqb n (of_ascii "blur") = false /\ eqb n (of_ascii "bright") = false
  /\ eqb n (of_ascii "contrast") = false.
Proof.
  unfold builtin_filters. cbn [map In]. rewrite !eqb_neq. split.
  - intros H. repeat split; intros E; apply H; rewrite E; auto 6.
  - intros [H1 [H2 [H3 [H4 H5]]]] [E|[E|[E|[E|[E|[]]]]]]; congruence.
Qed.

(** When no built-in name matches, only the file system decides. *)
Lemma apply_filter_not_builtin (P : Platform) (img : Image) (filter_name : str) :
  let n := strip (lower P filter_name) in
  ~ In n builtin_filters ->
  apply_filter P img filter_name =
    if path_exists P (overlay_path n) then apply_overlay P img n else Ok img.
Proof.
  cbn zeta. intros H. apply not_builtin_eqb in H as [H1 [H2 [H3 [H4 H5]]]].
  unfold apply_filter. now rewrite H1, H2, H3, H4, H5.
Qed.





(** The anchor of the [dog] overlay is [(W // 5, H // 25)], whatever the
    size of the overlay. *)
Lemma overlay_pos_dog (W H : Z) (overlay_size : Z * Z) :
  overlay_pos (of_ascii "dog") W H overlay_size = (W / 5, H / 25).
Proof. reflexivity. Qed.

(** C8: on a base image of 1000 by 800 pixels, with the filter name [dog]
    (after normalisation) and its asset in place, the image returned is the
    base image on which the resized overlay was pasted with its top left
    corner at exactly (200, 32). *)
Theorem C8_dog_anchor_1000_800
    (P : Platform) (img overlay resized : Image) (filter_name : str)
    (new_size : Z * Z) :
  size img = (1000, 800) ->
  strip (lower P filter_name) = of_ascii "dog" ->
  path_exists P (overlay_path (of_ascii "dog")) = true ->
  Image_open P (overlay_path (of_ascii "dog")) = Ok overlay ->
  overlay_new_size 1000 (size (Image_convert P overlay ModeRGBA)) = Ok new_size ->
  Image_resize P (Image_convert P overlay ModeRGBA) new_size LANCZOS = Ok resized ->
  apply_filter P img filter_name =
    Ok (Image_convert P
          (Image_paste P (Image_convert P img ModeRGBA) resized (200, 32) resized)
          ModeRGB)
  /\ overlay_pos (of_ascii "dog") 1000 800 (size resized) = (1000 / 5, 800 / 25).
Proof.
  intros S N E O Z R. split; [|reflexivity].
  rewrite apply_filter_not_builtin; rewrite N.
  - rewrite E. unfold apply_overlay. rewrite O. cbn [bind].
    rewrite S, Z. cbn [bind]. rewrite R. cbn [bind].
    rewrite overlay_pos_dog. reflexivity.
  - vm_compute. intros [H|[H|[H|[H|[H|[]]]]]]; discriminate.
Qed.

Lemma C8_dog_anchor_1000_800_witness :
  apply_filter Small.platform (Small.photo 1000 800) (of_ascii "Dog") =
    Ok (Image_convert Small.platform
          (Image_paste Small.platform
             (Image_convert Small.platform (Small.photo 1000 800) ModeRGBA)
             (Small.fill ModeRGBA (500, 250) [255; 255; 255; 128]%N)
             (200, 32)
             (Small.fill ModeRGBA (500, 250) [255; 255; 255; 128]%N))
          ModeRGB)
  /\ overlay_pos (of_ascii "dog") 1000 800
       (size (Small.fill ModeRGBA (500, 250) [255; 255; 255; 128]%N))
     = (1000 / 5, 800 / 25).
Proof.
  apply (C8_dog_anchor_1000_800 Small.platform (Small.photo 1000 800)
           (Small.fill ModeRGBA (4, 2) [255; 255; 255; 128]%N)
           (Small.fill ModeRGBA (500, 250) [255; 255; 255; 128]%N)
           (of_ascii "Dog") (500, 250));
    reflexivity.
Defined.

(** C2, refuted as stated: for a base image 5 pixels wide and an overlay of
    3 by 2 pixels the overlay is resized to 2 by 1. *)
Lemma C2_not_exact_half_nor_aspect :
  overlay_new_size 5 (3, 2) = Ok (2, 1)
  /\ ~ exact_half_and_aspect 5 (3, 2).
Proof.
  split; [reflexivity|].
  intros [nw [nh [E [H1 H2]]]]. vm_compute in E. inversion E. subst. lia.
Qed.

(** Neither does an even width save the ratio: 100 by 29 into a base image
    200 wide gives 100 by 28, because 100 * (29 / 100) is just below 29 in
    floating point. *)
Lemma overlay_new_size_200_100_29 : overlay_new_size 200 (100, 29) = Ok (100, 28).
Proof. reflexivity. Qed.

(** C2, amended: in the overlay branch the overlay is resized with Lanczos
    resampling to the width [W // 2], which is half of [W] rounded down
    (exactly half only when [W] is even), and to the height
    [int((W // 2) * (oh / ow))], computed in floating point and truncated.
    For every image that fits in memory ([(W // 2) * oh] below [2 ^ 50]) that
    height is the exact quotient [(W // 2) * oh / ow] rounded down, or one
    less when the quotient is a whole number: the aspect ratio is kept up to
    one pixel, not exactly. *)
Theorem C2_overlay_resized_floor_half
    (P : Platform) (img overlay : Image) (filter_name : str) (W H ow oh : Z) :
  size img = (W, H) ->
  Image_open P (overlay_path filter_name) = Ok overlay ->
  size (Image_convert P overlay ModeRGBA) = (ow, oh) ->
  0 <= W -> 0 < ow -> 0 <= oh -> W / 2 * oh < 2 ^ 50 ->
  exists nh,
    overlay_new_size W (ow, oh) = Ok (W / 2, nh)
    /\ apply_overlay P img filter_name =
         (resized <- Image_resize P (Image_convert P overlay ModeRGBA)
                       (W / 2, nh) LANCZOS ;;
          Ok (Image_convert P
                (Image_paste P (Image_convert P img ModeRGBA) resized
                   (overlay_pos filter_name W H (size resized)) resized)
                ModeRGB))
    /\ W - 1 <= 2 * (W / 2) <= W
    /\ W / 2 * oh / ow - 1 <= nh <= W / 2 * oh / ow
    /\ ((W / 2 * oh) mod ow <> 0 -> nh = W / 2 * oh / ow).
Proof.
  intros S O Z HW How Hoh HE.
  assert (N : overlay_new_size W (ow, oh)
              = Ok (W / 2, Float.to_int (Float.mul (Float.of_int (W / 2)) (Float.div_int oh ow)))).
  { unfold overlay_new_size, Float.true_div. cbn [fst snd].
    destruct (Z.eqb_spec ow 0); [lia | reflexivity]. }
  exists (Float.to_int (Float.mul (Float.of_int (W / 2)) (Float.div_int oh ow))).
  split; [exact N|]. split.
  - unfold apply_overlay. rewrite O. cbn [bind]. rewrite S, Z, N. reflexivity.
  - split; [pose proof (Z.div_mod W 2 ltac:(lia));
            pose proof (Z.mod_pos_bound W 2 ltac:(lia)); lia|].
    apply overlay_height_bounds; try lia.
    apply Z.div_pos; lia.
Qed.

Lemma C2_overlay_resized_floor_half_witness :
  exists nh,
    overlay_new_size 11 (4, 2) = Ok (11 / 2, nh)
    /\ apply_overlay Small.platform (Small.photo 11 8) (of_ascii "dog") =
         (resized <- Image_resize Small.platform
                       (Image_convert Small.platform
                          (Small.fill ModeRGBA (4, 2) [255; 255; 255; 128]%N)
                          ModeRGBA)
                       (11 / 2, nh) LANCZOS ;;
          Ok (Image_convert Small.platform
                (Image_paste Small.platform
                   (Image_convert Small.platform (Small.photo 11 8) ModeRGBA)
                   resized
                   (overlay_pos (of_ascii "dog") 11 8 (size resized)) resized)
                ModeRGB))
    /\ 11 - 1 <= 2 * (11 / 2) <= 11
    /\ 11 / 2 * 2 / 4 - 1 <= nh <= 11 / 2 * 2 / 4
    /\ ((11 / 2 * 2) mod 4 <> 0 -> nh = 11 / 2 * 2 / 4).
Proof.
  apply (C2_overlay_resized_floor_half Small.platform (Small.photo 11 8)
           (Small.fill ModeRGBA (4, 2) [255; 255; 255; 128]%N)
           (of_ascii "dog") 11 8 4 2);
    try reflexivity; lia.
Defined.

(** ** Whitespace splitting *)

Lemma split_ws_from_end cur :
  split_ws_from cur [] = match cur with [] => [] | _ => [rev cur] end.
Proof. reflexivity. Qed.

(** A whitespace character closes the field being read. *)
Lemma split_ws_from_app_space (a b : str) (c : char) : forall cur,
  isspace c = true ->
  split_ws_from cur (a ++ c :: b) = split_ws_from cur a ++ split b.
Proof.
  induction a as [|x a IH]; intros cur Hc.
  - cbn [app split_ws_from]. rewrite Hc. destruct cur; reflexivity.
  - cbn [app split_ws_from]. destruct (isspace x).
    + destruct cur; rewrite IH by exact Hc; reflexivity.
    + apply IH, Hc.
Qed.

Lemma split_app_space (a b : str) :
  split (a ++ [space] ++ b) = split a ++ split b.
Proof. apply split_ws_from_app_space. reflexivity. Qed.

Lemma split_ws_from_nonspace (w : str) : forall cur s,
  forallb nonspace w = true ->
  split_ws_from cur (w ++ s) = split_ws_from (rev w ++ cur) s.
Proof.
  induction w as [|x w IH]; intros cur s H; [reflexivity|].
  cbn [forallb] in H. apply andb_true_iff in H as [Hx Hw].
  unfold nonspace in Hx. apply negb_true_iff in Hx.
  cbn [app split_ws_from rev]. rewrite Hx, (IH _ _ Hw), <- app_assoc. reflexivity.
Qed.

Lemma split_word (w : str) : word w -> split w = [w].
Proof.
  intros [Hne Hw]. unfold split.
  rewrite <- (app_nil_r w) at 1. rewrite split_ws_from_nonspace by exact Hw.
  rewrite app_nil_r, split_ws_from_end.
  destruct (rev w) eqn:R.
  - apply (f_equal (@rev _)) in R. rewrite rev_involutive in R. contradiction.
  - rewrite <- R, rev_involutive. reflexivity.
Qed.

(** [split] returns words only. *)
Lemma split_ws_from_words (s : str) : forall cur,
  forallb nonspace cur = true ->
  Forall word (split_ws_from cur s).
Proof.
  assert (W : forall cur, cur <> [] -> forallb nonspace cur = true -> word (rev cur)).
  { intros cur Hne H. split.
    - intros E. apply Hne. apply (f_equal (@rev _)) in E.
      now rewrite rev_involutive in E.
    - rewrite forallb_forall in *. intros x Hx. apply H. now apply in_rev. }
  induction s as [|c s IH]; intros cur H; cbn [split_ws_from].
  - destruct cur; constructor; [apply W; [discriminate | exact H] | constructor].
  - destruct (isspace c) eqn:Hc.
    + destruct cur; [apply IH; reflexivity|].
      constructor; [apply W; [discriminate | exact H] | apply IH; reflexivity].
    + apply IH. cbn [forallb]. unfold nonspace at 1. now rewrite Hc, H.
Qed.

Lemma split_words (s : str) : Forall word (split s).
Proof. apply split_ws_from_words. reflexivity. Qed.

(** Stripping whitespace at the ends does not change the fields. *)
Lemma split_ws_from_rstrip (s : str) : forall cur,
  split_ws_from cur (rstrip s) = split_ws_from cur s.
Proof.
  unfold rstrip.
  induction s as [|c s IH]; intros cur; [reflexivity|].
  cbn [rstrip_by]. destruct (rstrip_by isspace s) as [|d r] eqn:R.
  - cbn [split_ws_from]. destruct (isspace c) eqn:Hc.
    + rewrite <- IH, !split_ws_from_end. destruct cur; reflexivity.
    + cbn [split_ws_from]. rewrite Hc, <- IH. reflexivity.
  - cbn [split_ws_from]. destruct (isspace c); rewrite <- !IH; reflexivity.
Qed.

Lemma split_lstrip (s : str) : split (lstrip_by isspace s) = split s.
Proof.
  unfold split. induction s as [|c s IH]; [reflexivity|].
  cbn [lstrip_by split_ws_from]. destruct (isspace c) eqn:Hc; [exact IH|].
  cbn [split_ws_from]. now rewrite Hc.
Qed.

Lemma split_strip (s : str) : split (strip s) = split s.
Proof.
  unfold strip, strip_by.
  change (rstrip_by isspace (lstrip_by isspace s)) with (rstrip (lstrip_by isspace s)).
  unfold split at 1. rewrite split_ws_from_rstrip. apply split_lstrip.
Qed.

Lemma split_join_space (lines : list str) :
  split (join [space] lines) = concat (map split lines).
Proof.
  induction lines as [|l [|l' rest] IH].
  - reflexivity.
  - cbn [join map concat]. now rewrite app_nil_r.
  - change (join [space] (l :: l' :: rest))
      with (l ++ [space] ++ join [space] (l' :: rest)).
    rewrite split_app_space, IH. reflexivity.
Qed.

Lemma split_all_space (s : str) : forallb isspace s = true -> split s = [].
Proof.
  unfold split. induction s as [|c s IH]; [reflexivity|].
  cbn [forallb split_ws_from]. intros H. apply andb_true_iff in H as [Hc Hs].
  rewrite Hc. auto.
Qed.

(** ** The text layout engine *)

Section Wrap.

Variable P : Platform.
Variable image : Image.
Variable font : Font P.
Variable W : Z.

Lemma flush_fields lines current :
  concat (map split (flush lines current)) = concat (map split lines) ++ split current.
Proof.
  destruct current as [|c s]; cbn [flush].
  - now rewrite app_nil_r.
  - rewrite map_app, concat_app. cbn [map concat]. now rewrite app_nil_r.
Qed.

(** The loop neither loses nor reorders a word: the fields of the lines it
    returns are the fields of the lines already flushed, then those of the
    current line, then the words still to place. *)
Lemma wrap_words_fields (words : list str) : forall lines current,
  Forall word words ->
  concat (map split (wrap_words P image font W words lines current)) =
    concat (map split lines) ++ split current ++ words.
Proof.
  induction words as [|w rest IH]; intros lines current Hw.
  - cbn [wrap_words]. rewrite flush_fields, app_nil_r. reflexivity.
  - inversion Hw as [|? ? Hword Hrest]; subst.
    cbn [wrap_words]. cbv zeta.
    destruct (_ <=? _).
    + rewrite IH by exact Hrest.
      rewrite split_strip, split_app_space, (split_word w Hword), <- app_assoc.
      reflexivity.
    + rewrite IH by exact Hrest.
      rewrite flush_fields, (split_word w Hword), <- app_assoc. reflexivity.
Qed.

(** Splitting the wrapped lines, joined by spaces, gives back the words of
    the text. *)
Lemma split_join_wrap_text (txt : str) :
  split (join [space] (wrap_text P image font W txt)) = split txt.
Proof.
  rewrite split_join_space. unfold wrap_text.
  rewrite wrap_words_fields by apply split_words. reflexivity.
Qed.

(** C7: wrapping is idempotent.  Joining the lines of a wrapped text with
    single spaces and wrapping the result again, with the same font and the
    same image width (hence the same limit of 90% of it), gives the same
    lines. *)
Theorem C7_wrap_text_idempotent (txt : str) :
  wrap_text P image font W (join [space] (wrap_text P image font W txt))
  = wrap_text P image font W txt.
Proof.
  unfold wrap_text at 1. rewrite split_join_wrap_text. reflexivity.
Qed.

End Wrap.

Example wrap_text_small :
  wrap_text Small.platform (Small.photo 60 10) tt 60
    (of_ascii "  one two  three extraordinarily four ")
  = map of_ascii ["one two"; "three"; "extraordinarily"; "four"].
Proof. reflexivity. Qed.

(** A text without a word gives no line. *)
Lemma wrap_text_blank (P : Platform) (L : PlatformLaws P) image font W (text : str) :
  forallb isspace text = true ->
  wrap_text P image font W (upper P text) = [].
Proof.
  intros H. unfold wrap_text.
  now rewrite (split_all_space _ (upper_space P L text H)).
Qed.

(** C9: for an empty or whitespace-only text, [draw_caption_on_image] draws
    nothing and returns what the JPEG encoder returns for the image as it
    was passed in; in particular it returns bytes, and does not raise,
    whenever the image can be encoded.  The only exceptions handled on the
    way are those of the font lookup, which ends with the default font. *)
Theorem C9_blank_text_encodes_image
    (P : Platform) (L : PlatformLaws P) (image : Image) (text position : str) :
  forallb isspace text = true ->
  draw_caption_on_image P image text position = Image_save_JPEG P image 92
  /\ forall out, Image_save_JPEG P image 92 = Ok out ->
                 draw_caption_on_image P image text position = Ok out.
Proof.
  intros H.
  assert (E : draw_caption_on_image P image text position = Image_save_JPEG P image 92).
  { unfold draw_caption_on_image. destruct (size image) as [W Hh].
    cbv zeta. rewrite (wrap_text_blank P L) by exact H. reflexivity. }
  split; [exact E|]. intros out O. now rewrite E.
Qed.

Lemma C9_blank_text_encodes_image_witness :
  draw_caption_on_image Small.platform (Small.photo 3 2) (of_ascii "   ")
    (of_ascii "bottom")
  = Image_save_JPEG Small.platform (Small.photo 3 2) 92
  /\ forall out,
       Image_save_JPEG Small.platform (Small.photo 3 2) 92 = Ok out ->
       draw_caption_on_image Small.platform (Small.photo 3 2) (of_ascii "   ")
         (of_ascii "bottom") = Ok out.
Proof.
  apply (C9_blank_text_encodes_image Small.platform small_platform_laws
           (Small.photo 3 2) (of_ascii "   ") (of_ascii "bottom")).
  reflexivity.
Defined.

(** With a text, the same call does change the image before encoding it. *)
Example draw_caption_small :
  draw_caption_on_image Small.platform (Small.photo 3 2) (of_ascii "hi")
    (of_ascii "top")
  = Image_save_JPEG Small.platform (Small.paint (Small.photo 3 2)) 92.
Proof. reflexivity. Qed.

(** ** Further properties of the suggestion parser *)

Lemma fold_process_line_hashtags lines : forall st,
  hashtags (fold_left process_line lines st) =
    hashtags st
    ++ map (strip_chars [hash])
         (filter (startswith hash) (map (strip_chars bullets) lines)).
Proof.
  induction lines as [|l lines IH]; intros st; cbn [fold_left map filter].
  - now rewrite app_nil_r.
  - rewrite IH, process_line_dispatch.
    destruct (startswith hash (strip_chars bullets l)) eqn:S.
    + rewrite (dispatch_hashtag _ _ S). cbn [hashtags map].
      now rewrite <- app_assoc.
    + f_equal. unfold dispatch_line.
      destruct (strip_chars bullets l); [reflexivity|]. rewrite S.
      destruct (_ <? _); reflexivity.
Qed.

Lemma trimmed_mem_single (c : char) (s : str) :
  trimmed (mem [c]) s -> startswith c s = false /\ endswith c s = false.
Proof.
  assert (M : forall x, mem [c] x = N.eqb x c).
  { intros x. unfold mem. cbn [existsb]. now rewrite orb_false_r. }
  destruct s as [|x s]; [auto|].
  intros [H1 H2]. rewrite M in H1, H2. split; [exact H1|].
  unfold endswith.
  assert (E : rev (x :: s) = last (x :: s) x :: rev (removelast (x :: s))).
  { rewrite (app_removelast_last x (l := x :: s)) at 1 by discriminate.
    rewrite rev_app_distr. reflexivity. }
  rewrite E. exact H2.
Qed.

Lemma In_firstn {A} (n : nat) (l : list A) (x : A) : In x (firstn n l) -> In x l.
Proof.
  intros H. rewrite <- (firstn_skipn n l). apply in_or_app. now left.
Qed.

(** X1. Every caption returned is a non-empty line that does not start with
    ['#'] and has none of ['-'], ['•'], [' '] at either end. *)
Theorem captions_are_clean (text : option str) :
  Forall (fun c => c <> [] /\ startswith hash c = false
                   /\ trimmed (mem bullets) c)
         (captions (generate_captions text)).
Proof.
  rewrite generate_captions_fold. cbn zeta. cbn [captions].
  destruct (fold_process_line (raw_lines text) no_suggestions) as [E _];
    [simpl; lia|].
  rewrite E. cbn [no_suggestions captions app].
  apply Forall_forall. intros c Hc.
  apply In_firstn in Hc. unfold plain_of in Hc.
  apply filter_In in Hc as [Hin Hp].
  apply in_map_iff in Hin as [l [<- _]].
  unfold is_plain in Hp. apply andb_true_iff in Hp as [P1 P2].
  apply negb_true_iff in P1, P2. apply eqb_neq in P1.
  repeat split; auto. apply strip_by_trimmed.
Qed.

(** X2. The hashtags returned are, in order, the trimmed lines starting with
    ['#'], each without the ['#'] at its two ends: one entry a line, none
    starting or ending with ['#']. *)
Theorem hashtags_are_stripped (text : option str) :
  hashtags (generate_captions text) = map (strip_chars [hash]) (tag_lines text)
  /\ length (hashtags (generate_captions text)) = length (tag_lines text)
  /\ Forall (fun h => startswith hash h = false /\ endswith hash h = false)
            (hashtags (generate_captions text)).
Proof.
  assert (E : hashtags (generate_captions text)
              = map (strip_chars [hash]) (tag_lines text)).
  { rewrite generate_captions_fold. cbn zeta. cbn [hashtags].
    now rewrite fold_process_line_hashtags. }
  rewrite E. split; [reflexivity|]. split; [apply length_map|].
  apply Forall_forall. intros h Hh. apply in_map_iff in Hh as [l [<- _]].
  apply trimmed_mem_single. apply strip_by_trimmed.
Qed.

Lemma strip_by_idem (p : char -> bool) (s : str) :
  strip_by p (strip_by p s) = strip_by p s.
Proof.
  pose proof (strip_by_trimmed p s) as T.
  unfold strip_by at 1.
  destruct (strip_by p s) as [|c r] eqn:D; [reflexivity|].
  destruct T as [T1 _]. cbn [lstrip_by]. rewrite T1, <- D.
  unfold strip_by. apply rstrip_by_idem.
Qed.

(** X3. The description returned has no whitespace at either end. *)
Theorem description_is_stripped (text : option str) :
  trimmed isspace (description (generate_captions text))
  /\ strip (description (generate_captions text))
     = description (generate_captions text).
Proof.
  rewrite generate_captions_fold. cbn zeta. cbn [description].
  split; [apply strip_by_trimmed | apply strip_by_idem].
Qed.

Lemma split_on_nonempty (sep : char) (s : str) : split_on sep s <> [].
Proof.
  destruct s as [|c s]; cbn [split_on]; [discriminate|].
  destruct (N.eqb c sep); [discriminate|].
  destruct (split_on sep s); discriminate.
Qed.

(** [(a + sep + b).split(sep) = a.split(sep) + b.split(sep)] *)
Lemma split_on_app (sep : char) (a b : str) :
  split_on sep (a ++ sep :: b) = split_on sep a ++ split_on sep b.
Proof.
  induction a as [|c a IH]; cbn [app split_on].
  - now rewrite N.eqb_refl.
  - destruct (N.eqb c sep); [now rewrite IH|].
    rewrite IH. pose proof (split_on_nonempty sep a) as N.
    destruct (split_on sep a); [contradiction | reflexivity].
Qed.

Lemma split_on_no_sep (sep : char) (s : str) :
  forallb (fun c => negb (N.eqb c sep)) s = true -> split_on sep s = [s].
Proof.
  induction s as [|c s IH]; cbn [forallb split_on]; [reflexivity|].
  intros H. apply andb_true_iff in H as [Hc Hs].
  apply negb_true_iff in Hc. now rewrite Hc, (IH Hs).
Qed.

Lemma bullets_no_newline (s : str) :
  forallb (mem bullets) s = true ->
  forallb (fun c => negb (N.eqb c newline)) s = true.
Proof.
  induction s as [|c s IH]; cbn [forallb]; [reflexivity|].
  intros H. apply andb_true_iff in H as [Hc Hs]. rewrite (IH Hs), andb_true_r.
  unfold mem, bullets in Hc. cbn [existsb] in Hc.
  destruct (N.eqb_spec c newline) as [->|]; [discriminate | reflexivity].
Qed.

Lemma process_line_blank (st : Suggestions) (line : str) :
  forallb (mem bullets) line = true -> process_line st line = st.
Proof.
  intros H. rewrite process_line_dispatch.
  unfold strip_chars. now rewrite strip_by_all.
Qed.

(** X4. A line made only of ['-'], ['•'] and [' '] (an empty line too) is
    ignored: putting one between two parts of the reply does not change any
    of the three fields. *)
Theorem blank_line_ignored (a b blank : str) :
  forallb (mem bullets) blank = true ->
  generate_captions (Some (a ++ [newline] ++ blank ++ [newline] ++ b))
  = generate_captions (Some (a ++ [newline] ++ b)).
Proof.
  intros H. rewrite !generate_captions_fold. cbn zeta.
  assert (R1 : raw_lines (Some (a ++ [newline] ++ blank ++ [newline] ++ b))
               = split_on newline a ++ [blank] ++ split_on newline b).
  { cbn [app]. unfold raw_lines.
    destruct (a ++ newline :: blank ++ newline :: b) eqn:E.
    - destruct a; discriminate.
    - rewrite <- E. rewrite split_on_app, split_on_app.
      now rewrite (split_on_no_sep _ _ (bullets_no_newline _ H)). }
  assert (R2 : raw_lines (Some (a ++ [newline] ++ b))
               = split_on newline a ++ split_on newline b).
  { cbn [app]. unfold raw_lines.
    destruct (a ++ newline :: b) eqn:E.
    - destruct a; discriminate.
    - rewrite <- E. apply split_on_app. }
  rewrite R1, R2, !fold_left_app. cbn [fold_left].
  now rewrite (process_line_blank _ _ H).
Qed.

Lemma blank_line_ignored_witness :
  generate_captions
    (Some (of_ascii "one" ++ [newline] ++ of_ascii " - " ++ [newline]
           ++ of_ascii "#two"))
  = generate_captions (Some (of_ascii "one" ++ [newline] ++ of_ascii "#two")).
Proof.
  apply (blank_line_ignored (of_ascii "one") (of_ascii "#two") (of_ascii " - ")).
  reflexivity.
Defined.

(** ** Further properties of the word wrap *)

Lemma lstrip_by_trimmed (p : char -> bool) (s : str) :
  trimmed p s -> lstrip_by p s = s.
Proof.
  destruct s as [|c s]; [reflexivity|]. intros [H _]. cbn [lstrip_by]. now rewrite H.
Qed.

Lemma rstrip_by_last_keep (p : char -> bool) (s : str) (d : char) :
  s <> [] -> p (last s d) = false -> rstrip_by p s = s.
Proof.
  induction s as [|c s IH]; [contradiction|]. intros _ H.
  cbn [rstrip_by]. destruct s as [|c' s'].
  - cbn in *. now rewrite H.
  - rewrite IH; [reflexivity | discriminate | exact H].
Qed.

Lemma strip_by_keep (p : char -> bool) (s : str) :
  trimmed p s -> strip_by p s = s.
Proof.
  intros T. unfold strip_by. rewrite (lstrip_by_trimmed p s T).
  destruct s as [|c s]; [reflexivity|]. destruct T as [_ T].
  apply (rstrip_by_last_keep p (c :: s) c); [discriminate | exact T].
Qed.

Lemma word_trimmed (w : str) : word w -> trimmed isspace w.
Proof.
  intros [Hne Hw]. destruct w as [|c w]; [exact I|].
  rewrite forallb_forall in Hw. unfold nonspace in Hw. split.
  - apply negb_true_iff, Hw. now left.
  - apply negb_true_iff, Hw.
    destruct (exists_last (l := c :: w) ltac:(discriminate)) as [l' [a E]].
    rewrite E, last_last, <- E. rewrite E. apply in_or_app. right. now left.
Qed.

Lemma word_single_spaced (w : str) : word w -> single_spaced w.
Proof.
  intros H. split; [apply H|]. split; [now apply word_trimmed|].
  now rewrite (split_word w H).
Qed.

Lemma join_snoc (sep : str) (ws : list str) (w : str) :
  ws <> [] -> join sep (ws ++ [w]) = join sep ws ++ sep ++ w.
Proof.
  induction ws as [|a [|b ws] IH]; [contradiction | reflexivity|].
  intros _. change (join sep ((a :: b :: ws) ++ [w]))
    with (a ++ sep ++ join sep ((b :: ws) ++ [w])).
  rewrite IH by discriminate.
  change (join sep (a :: b :: ws)) with (a ++ sep ++ join sep (b :: ws)).
  now rewrite <- !app_assoc.
Qed.

Lemma last_app_cons {A} (l r : list A) (x d : A) :
  last (l ++ x :: r) d = last (x :: r) d.
Proof.
  induction l as [|a l IH]; [reflexivity|].
  cbn [app]. rewrite <- IH.
  destruct (l ++ x :: r) eqn:E; [destruct l; discriminate | reflexivity].
Qed.

Lemma last_default {A} (l : list A) (d d' : A) :
  l <> [] -> last l d = last l d'.
Proof.
  induction l as [|a [|b l] IH]; [contradiction | reflexivity|].
  intros _. change (last (b :: l) d = last (b :: l) d'). apply IH. discriminate.
Qed.

(** Appending a word to a line, as line 99 does. *)
Lemma trial_single_spaced (current w : str) :
  (current = [] \/ single_spaced current) -> word w ->
  single_spaced (strip (current ++ [space] ++ w))
  /\ strip (current ++ [space] ++ w)
     = match current with [] => w | _ => current ++ [space] ++ w end.
Proof.
  intros [->|[Hne [T J]]] Hw.
  - cbn [app]. assert (E : strip (space :: w) = w).
    { unfold strip, strip_by. cbn [lstrip_by].
      change (isspace space) with true. cbv iota.
      apply (strip_by_keep isspace w), word_trimmed, Hw. }
    rewrite E. split; [now apply word_single_spaced | reflexivity].
  - destruct current as [|c cur]; [contradiction|].
    assert (Tt : trimmed isspace ((c :: cur) ++ [space] ++ w)).
    { destruct T as [T1 _]. cbn [app trimmed]. split; [exact T1|].
      change (c :: cur ++ space :: w) with ((c :: cur) ++ space :: w).
      rewrite last_app_cons.
      destruct w as [|x w]; [destruct Hw; contradiction|].
      pose proof (word_trimmed (x :: w) Hw) as [_ L].
      change (last (space :: x :: w) c) with (last (x :: w) c).
      rewrite (last_default (x :: w) c x) by discriminate. exact L. }
    assert (E : strip ((c :: cur) ++ [space] ++ w) = (c :: cur) ++ [space] ++ w)
      by (apply strip_by_keep, Tt).
    rewrite E. split; [|reflexivity].
    split; [discriminate|]. split; [exact Tt|].
    rewrite split_app_space, (split_word w Hw).
    assert (S : split (c :: cur) <> []).
    { intros Z. rewrite Z in J. discriminate. }
    rewrite join_snoc by exact S. now rewrite J.
Qed.

Section WrapMore.

Variable P : Platform.
Variable image : Image.
Variable font : Font P.
Variable W : Z.

Lemma flush_Forall (Q : str -> Prop) lines current :
  Forall Q lines -> (current = [] \/ Q current) -> Forall Q (flush lines current).
Proof.
  intros HL [->|HQ]; [exact HL|].
  destruct current; [exact HL|]. cbn [flush].
  apply Forall_app. split; [exact HL | constructor; [exact HQ | constructor]].
Qed.

Lemma wrap_words_single_spaced (words : list str) : forall lines current,
  Forall word words -> Forall single_spaced lines ->
  (current = [] \/ single_spaced current) ->
  Forall single_spaced (wrap_words P image font W words lines current).
Proof.
  induction words as [|w rest IH]; intros lines current Hw HL HC.
  - cbn [wrap_words]. now apply flush_Forall.
  - inversion Hw as [|? ? Hword Hrest]; subst.
    destruct (trial_single_spaced current w HC Hword) as [Ht _].
    cbn [wrap_words]. cbv zeta. destruct (_ <=? _).
    + apply IH; auto.
    + apply IH; auto using flush_Forall, word_single_spaced.
Qed.

(** X6. Every line of the wrapped text is non-empty, has no whitespace at either
    end, and its words are separated by exactly one space. *)
Theorem wrap_text_lines_single_spaced (txt : str) :
  Forall single_spaced (wrap_text P image font W txt).
Proof.
  unfold wrap_text. apply wrap_words_single_spaced; auto using split_words.
Qed.

Lemma wrap_words_fit (words : list str) : forall lines current,
  let good l := text_width P image font l <= wrap_limit W \/ word l in
  Forall word words -> Forall good lines -> (current = [] \/ good current) ->
  Forall good (wrap_words P image font W words lines current).
Proof.
  cbv zeta.
  induction words as [|w rest IH]; intros lines current Hw HL HC.
  - cbn [wrap_words]. now apply flush_Forall.
  - inversion Hw as [|? ? Hword Hrest]; subst.
    cbn [wrap_words]. cbv zeta.
    destruct (Z.leb_spec
                (bbox_right (Draw_textbbox P image (strip (current ++ [space] ++ w)) font)
                 - bbox_left (Draw_textbbox P image (strip (current ++ [space] ++ w)) font))
                (Float.to_int (Float.mul (Float.of_int W) (Float.literal 9 10))))
      as [Hfit|Hover].
    + apply IH; auto.
    + apply IH; auto. now apply flush_Forall.
Qed.

(** X7. Every line of the wrapped text is at most [int(W * 0.9)] pixels wide as
    the font measures it, unless it consists of a single word: only a word
    too wide on its own exceeds the limit. *)
Theorem wrap_text_lines_fit (txt : str) :
  Forall (fun l => text_width P image font l <= wrap_limit W \/ word l)
         (wrap_text P image font W txt).
Proof.
  unfold wrap_text. apply wrap_words_fit; auto using split_words.
Qed.

(** X8. Wrapping keeps the words of the text, all of them, once each, in
    order. *)
Theorem wrap_text_keeps_words (txt : str) :
  concat (map split (wrap_text P image font W txt)) = split txt.
Proof.
  unfold wrap_text. rewrite wrap_words_fields by apply split_words. reflexivity.
Qed.

Lemma length_concat_nonempty {A B} (f : A -> list B) (ls : list A) :
  Forall (fun l => f l <> []) ls ->
  (length ls <= length (concat (map f ls)))%nat.
Proof.
  induction 1 as [|l ls Hl _ IH]; cbn [map concat length]; [lia|].
  rewrite length_app. destruct (f l); [contradiction|]. cbn [length]. lia.
Qed.

(** X9. There are at most as many lines as words, and no line exactly when the
    text has no word. *)
Theorem wrap_text_line_count (txt : str) :
  (length (wrap_text P image font W txt) <= length (split txt))%nat
  /\ (wrap_text P image font W txt = [] <-> split txt = []).
Proof.
  assert (K : concat (map split (wrap_text P image font W txt)) = split txt).
  { unfold wrap_text. rewrite wrap_words_fields by apply split_words. reflexivity. }
  assert (S : Forall single_spaced (wrap_text P image font W txt)).
  { unfold wrap_text. apply wrap_words_single_spaced; auto using split_words. }
  assert (N : Forall (fun l => split l <> []) (wrap_text P image font W txt)).
  { eapply Forall_impl; [|exact S]. intros l [Hne [_ J]] Z.
    rewrite Z in J. now symmetry in J. }
  split.
  - rewrite <- K. now apply length_concat_nonempty.
  - split.
    + intros E. rewrite E in K. now symmetry.
    + intros E. pose proof (length_concat_nonempty split _ N) as L.
      rewrite K, E in L. destruct (wrap_text P image font W txt); [reflexivity|].
      cbn in L. lia.
Qed.

Lemma breaks_forced_last (ls : list str) (a a' : str) :
  breaks_forced P image font W (ls ++ [a]) ->
  first_word a' = first_word a ->
  breaks_forced P image font W (ls ++ [a']).
Proof.
  intros H E. induction ls as [|l [|l2 r] IH].
  - exact H.
  - cbn [app breaks_forced] in *. now rewrite E.
  - cbn [app breaks_forced] in *. destruct H as [H1 H2]. split; [exact H1|].
    apply IH, H2.
Qed.

Lemma breaks_forced_snoc (ls : list str) (a b : str) :
  breaks_forced P image font W (ls ++ [a]) ->
  wrap_limit W < text_width P image font (a ++ [space] ++ first_word b) ->
  breaks_forced P image font W (ls ++ [a; b]).
Proof.
  intros H O. induction ls as [|l [|l2 r] IH].
  - cbn [app breaks_forced]. auto.
  - cbn [app breaks_forced] in *. destruct H as [H1 _]. auto.
  - cbn [app breaks_forced] in *. destruct H as [H1 H2]. split; [exact H1|].
    apply IH, H2.
Qed.

Lemma wrap_words_breaks_forced (words : list str) : forall lines current,
  Forall word words ->
  (current = [] \/ single_spaced current) ->
  (current = [] -> lines = []) ->
  breaks_forced P image font W (flush lines current) ->
  breaks_forced P image font W (wrap_words P image font W words lines current).
Proof.
  induction words as [|w rest IH]; intros lines current Hw HC HE HB.
  - exact HB.
  - inversion Hw as [|? ? Hword Hrest]; subst.
    destruct (trial_single_spaced current w HC Hword) as [Ht Et].
    cbn [wrap_words]. cbv zeta.
    destruct (Z.leb_spec
                (bbox_right (Draw_textbbox P image (strip (current ++ [space] ++ w)) font)
                 - bbox_left (Draw_textbbox P image (strip (current ++ [space] ++ w)) font))
                (Float.to_int (Float.mul (Float.of_int W) (Float.literal 9 10))))
      as [Hfit|Hover].
    + apply IH; auto.
      * intros Z. destruct Ht as [Hne _]. contradiction.
      * destruct Ht as [Hne _].
        destruct (strip (current ++ [space] ++ w)) as [|c t] eqn:T; [contradiction|].
        cbn [flush]. destruct current as [|c0 cur].
        -- rewrite (HE eq_refl). cbn. auto.
        -- cbn [flush] in HB. apply (breaks_forced_last _ (c0 :: cur)); [exact HB|].
           unfold first_word. rewrite <- T, split_strip, split_app_space.
           destruct HC as [HC|[_ [_ J]]]; [discriminate|].
           destruct (split (c0 :: cur)); [discriminate | reflexivity].
    + apply IH; auto using word_single_spaced.
      * intros Z. destruct Hword; contradiction.
      * destruct w as [|x w']; [destruct Hword; contradiction|].
        cbn [flush]. destruct current as [|c0 cur].
        -- rewrite (HE eq_refl). cbn. auto.
        -- cbn [flush] in HB |- *. rewrite <- app_assoc. cbn [app].
           apply breaks_forced_snoc; [exact HB|].
           unfold first_word. rewrite (split_word _ Hword). cbn [hd].
           rewrite Et in Hover. exact Hover.
Qed.

(** X10. The wrap is greedy: a line ends only where the next word no longer
    fits.  For two consecutive lines, the first one followed by a space and
    the first word of the second is wider than [int(W * 0.9)]. *)
Theorem wrap_text_breaks_forced (txt : str) :
  breaks_forced P image font W (wrap_text P image font W txt).
Proof.
  unfold wrap_text. apply wrap_words_breaks_forced; auto using split_words.
  exact I.
Qed.

End WrapMore.

(** ** Truncated quotients and products *)

Section FloatExact.

Import Float.

(** An integer below [2 ^ 53] converts without rounding. *)
Lemma of_int_exact (n : Z) : 0 <= n < 2 ^ 53 -> of_int n = mk n 0.
Proof.
  intros [H0 H1]. unfold of_int, round. rewrite (Z.abs_eq n H0).
  destruct (Z.leb_spec (Z.log2 n + 1 - prec) 0) as [_|Hd]; [reflexivity|].
  exfalso. unfold prec in Hd.
  destruct (Z.eq_dec n 0) as [->|Hn]; [simpl in Hd; lia|].
  assert (Z.log2 n < 53) by (apply Z.log2_lt_pow2; lia). lia.
Qed.

(** Truncating a rounded number: when [n * 2 ^ E <= m] and [m] stays below
    [(n + 1) * 2 ^ E] by more than its rounding error, [int] of the rounded
    [m * 2 ^ -E] is [n]. *)
Lemma to_int_round (m E n : Z) :
  0 <= m -> 0 <= E -> m < 2 ^ (E + 53) ->
  n * 2 ^ E <= m ->
  (2 ^ 53 + 1) * m < 2 ^ 53 * ((n + 1) * 2 ^ E) ->
  to_int (round m (- E)) = n.
Proof.
  intros Hm HE Hlt Hlo Hhi.
  assert (PE : 0 < 2 ^ E) by (apply Z.pow_pos_nonneg; lia).
  change (2 ^ 53) with 9007199254740992 in Hhi.
  assert (Hup : m < (n + 1) * 2 ^ E).
  { set (Y := (n + 1) * 2 ^ E) in *. lia. }
  unfold round. rewrite (Z.abs_eq m Hm).
  destruct (Z.leb_spec (Z.log2 m + 1 - prec) 0) as [Hd|Hd].
  - unfold to_int. cbn [Fnum Fexp].
    destruct (Z.leb_spec 0 (- E)) as [H|H].
    + replace E with 0 in * by lia. simpl in *. lia.
    + rewrite Z.opp_involutive, Z.quot_div_nonneg by lia.
      symmetry. apply Z.div_unique with (r := m - n * 2 ^ E); lia.
  - set (d := Z.log2 m + 1 - prec) in *.
    assert (Hpos : 0 < m).
    { destruct (Z.eq_dec m 0) as [->|]; [|lia]. unfold d, prec in Hd. simpl in Hd. lia. }
    rewrite (Z.sgn_pos m Hpos), Z.mul_1_l.
    destruct (rne_shift_error m d Hm Hd) as [Q0 [Q1 Q2]].
    pose proof (Z.log2_spec m Hpos) as [L _].
    assert (Ld : Z.log2 m = d + 52) by (unfold d, prec; lia).
    assert (HdE : d <= E).
    { assert (Z.log2 m < E + 53) by (apply Z.log2_lt_pow2; lia). lia. }
    rewrite Ld, Z.pow_add_r in L by lia.
    change (2 ^ 52) with 4503599627370496 in L.
    assert (Pd : 0 < 2 ^ d) by (apply Z.pow_pos_nonneg; lia).
    assert (Pg : 0 < 2 ^ (E - d)) by (apply Z.pow_pos_nonneg; lia).
    assert (EE : 2 ^ E = 2 ^ (E - d) * 2 ^ d).
    { rewrite <- Z.pow_add_r by lia. f_equal. lia. }
    set (q := rne_shift m d) in *.
    set (p := 2 ^ d) in *. set (g := 2 ^ (E - d)) in *.
    rewrite EE in Hlo, Hhi, Hup.
    (* n * g <= q < (n + 1) * g *)
    assert (B1 : n * g <= q).
    { assert (n * g * p < (q + 1) * p).
      { replace ((q + 1) * p) with (q * p + p) by ring.
        replace (n * g * p) with (n * (g * p)) by ring. lia. }
      apply Z.mul_lt_mono_pos_r in H; lia. }
    assert (B2 : q < (n + 1) * g).
    { assert (q * p < (n + 1) * g * p).
      { replace ((n + 1) * g * p) with ((n + 1) * (g * p)) by ring.
        set (Y := (n + 1) * (g * p)) in *. set (v := q * p) in *.
        lia. }
      apply Z.mul_lt_mono_pos_r in H; lia. }
    unfold to_int. cbn [Fnum Fexp].
    destruct (Z.leb_spec 0 (- E + d)) as [H|H].
    + assert (G1 : g = 1) by (unfold g; replace (E - d) with 0 by lia; reflexivity).
      replace (- E + d) with 0 by lia. change (2 ^ 0) with 1.
      rewrite G1 in B1, B2. lia.
    + replace (- (- E + d)) with (E - d) by lia. fold g.
      rewrite Z.quot_div_nonneg by lia.
      symmetry. apply Z.div_unique with (r := q - n * g); lia.
Qed.

(** [int(a / b)] is the integer quotient, for the sizes an image can
    have. *)
Lemma to_int_div_int (a b : Z) :
  0 <= a < 2 ^ 50 -> 0 < b -> to_int (div_int a b) = a / b.
Proof.
  intros [Ha0 Ha] Hb.
  destruct (Z.eq_dec a 0) as [->|Hne].
  { unfold div_int. cbn [Z.abs Z.sgn Z.mul]. rewrite Z.div_0_l by lia.
    set (k := Z.max 0 (56 + Z.log2 (Z.abs b) - Z.log2 0)).
    assert (Hk : 0 <= k) by (unfold k; lia).
    assert (P1 : 0 < 2 ^ (k + 1)) by (apply Z.pow_pos_nonneg; lia).
    assert (P2 : 0 < 2 ^ (k + 1 + 53)) by (apply Z.pow_pos_nonneg; lia).
    change (2 ^ 53) with 9007199254740992.
    apply to_int_round; change (2 ^ 53) with 9007199254740992; lia. }
  assert (Hpos : 0 < a) by lia.
  unfold div_int.
  rewrite (Z.abs_eq a), (Z.abs_eq b), (Z.sgn_pos a), (Z.sgn_pos b) by lia.
  rewrite !Z.mul_1_l.
  set (k := Z.max 0 (56 + Z.log2 b - Z.log2 a)).
  assert (Hk : 0 <= k) by (unfold k; lia).
  assert (Hpk : 0 < 2 ^ k) by (apply Z.pow_pos_nonneg; lia).
  pose proof (Z.div_mod (a * 2 ^ k) b ltac:(lia)) as E.
  pose proof (Z.mod_pos_bound (a * 2 ^ k) b Hb) as B.
  assert (Hq : 0 <= a * 2 ^ k / b) by (apply Z.div_pos; lia).
  pose proof (Z.div_mod a b ltac:(lia)) as En.
  pose proof (Z.mod_pos_bound a b Hb) as Bn.
  assert (Hn : 0 <= a / b) by (apply Z.div_pos; lia).
  set (n := a / b) in *. set (rn := a mod b) in *.
  set (q := a * 2 ^ k / b) in *. set (r := (a * 2 ^ k) mod b) in *.
  set (sticky := if r =? 0 then 0 else 1).
  assert (Hs : 0 <= sticky <= 1) by (unfold sticky; destruct (r =? 0); lia).
  assert (K2 : 2 ^ (k + 1) = 2 * 2 ^ k) by (rewrite Z.pow_add_r, Z.pow_1_r by lia; ring).
  (* the scaled dividend is large *)
  assert (Big : 2 ^ 56 * b <= a * 2 ^ (k + 1)).
  { pose proof (Z.log2_spec a Hpos) as [La _].
    pose proof (Z.log2_spec b Hb) as [_ Lb].
    assert (P : 2 ^ (56 + Z.log2 b) <= 2 ^ (Z.log2 a + k)).
    { apply Z.pow_le_mono_r; [lia|]. unfold k. lia. }
    pose proof (Z.log2_nonneg a). pose proof (Z.log2_nonneg b).
    rewrite !Z.pow_add_r in P by lia.
    unfold Z.succ in Lb. rewrite Z.pow_add_r, Z.pow_1_r in Lb by lia.
    assert (2 ^ Z.log2 a * 2 ^ k <= a * 2 ^ k) by (apply Z.mul_le_mono_nonneg_r; lia).
    rewrite K2. change (2 ^ 56) with 72057594037927936 in *. lia. }
  assert (SB : sticky * b <= b + 2 * r /\ (r = 0 -> sticky = 0)).
  { unfold sticky. destruct (Z.eqb_spec r 0); split; intros; lia. }
  assert (Hnq : n * 2 ^ k <= q).
  { apply Z.div_le_lower_bound; [lia|].
    replace (b * (n * 2 ^ k)) with (b * n * 2 ^ k) by ring.
    apply Z.mul_le_mono_nonneg_r; lia. }
  assert (AK : a * 2 ^ k < 2 ^ 50 * 2 ^ k) by (apply Z.mul_lt_mono_pos_r; lia).
  change (2 ^ 50) with 1125899906842624 in *.
  change (2 ^ 56) with 72057594037927936 in *.
  apply to_int_round; try lia.
  - (* below 2 ^ (k + 1 + 53) *)
    rewrite Z.pow_add_r, K2 by lia. change (2 ^ 53) with 9007199254740992.
    assert (b * q <= a * 2 ^ k) by lia.
    assert (q <= a * 2 ^ k).
    { assert (1 * q <= b * q) by (apply Z.mul_le_mono_nonneg_r; lia). lia. }
    lia.
  - (* the rounding error does not reach [n + 1] *)
    rewrite K2. change (2 ^ 53) with 9007199254740992.
    assert (M : (2 * q + sticky) * b <= 2 * (a * 2 ^ k) + b).
    { replace ((2 * q + sticky) * b) with (2 * (b * q) + sticky * b) by ring.
      destruct (Z.eq_dec r 0) as [R|R].
      - destruct SB as [_ S0]. rewrite (S0 R). lia.
      - assert (sticky * b <= 1 * b) by (apply Z.mul_le_mono_nonneg_r; lia). lia. }
    assert (N1 : (a + 1) * (2 * 2 ^ k) <= (n + 1) * (2 * 2 ^ k) * b).
    { replace ((n + 1) * (2 * 2 ^ k) * b) with ((b * n + b) * (2 * 2 ^ k)) by ring.
      apply Z.mul_le_mono_nonneg_r; lia. }
    rewrite K2 in Big.
    assert (C : (9007199254740992 + 1) * (2 * q + sticky) * b
                < 9007199254740992 * ((n + 1) * (2 * 2 ^ k)) * b).
    { replace ((9007199254740992 + 1) * (2 * q + sticky) * b)
        with ((9007199254740992 + 1) * ((2 * q + sticky) * b)) by ring.
      replace (9007199254740992 * ((n + 1) * (2 * 2 ^ k)) * b)
        with (9007199254740992 * ((n + 1) * (2 * 2 ^ k) * b)) by ring.
      replace ((a + 1) * (2 * 2 ^ k)) with (2 * (a * 2 ^ k) + 2 * 2 ^ k) in N1 by ring.
      set (X := a * 2 ^ k) in *. set (V := (2 * q + sticky) * b) in *.
      set (Y := (n + 1) * (2 * 2 ^ k) * b) in *. set (K := 2 ^ k) in *.
      lia. }
    apply Z.mul_lt_mono_pos_r in C; lia.
Qed.

(** [int(W * 0.9)], [int(H * 0.05)] and [int(h * 0.25)] are the integer
    quotients [9 * W // 10], [H // 20] and [h // 4]: the literals are not
    exact, but the error never reaches the next integer. *)
Lemma to_int_mul_0_9 (W : Z) :
  0 <= W < 2 ^ 49 -> to_int (mul (of_int W) (literal 9 10)) = 9 * W / 10.
Proof.
  intros [H0 H1]. change (2 ^ 49) with 562949953421312 in H1.
  rewrite of_int_exact by (change (2 ^ 53) with 9007199254740992; lia).
  change (literal 9 10) with (mk 8106479329266893 (-53)).
  unfold mul. cbn [Fnum Fexp]. change (0 + -53) with (Z.opp 53).
  pose proof (Z.div_mod (9 * W) 10 ltac:(lia)) as D.
  pose proof (Z.mod_pos_bound (9 * W) 10 ltac:(lia)) as B.
  apply to_int_round;
    change (2 ^ 53) with 9007199254740992;
    change (2 ^ (53 + 53)) with 81129638414606681695789005144064; lia.
Qed.

Lemma to_int_mul_0_05 (H : Z) :
  0 <= H < 2 ^ 49 -> to_int (mul (of_int H) (literal 5 100)) = H / 20.
Proof.
  intros [H0 H1]. change (2 ^ 49) with 562949953421312 in H1.
  rewrite of_int_exact by (change (2 ^ 53) with 9007199254740992; lia).
  change (literal 5 100) with (mk 7205759403792794 (-57)).
  unfold mul. cbn [Fnum Fexp]. change (0 + -57) with (Z.opp 57).
  pose proof (Z.div_mod H 20 ltac:(lia)) as D.
  pose proof (Z.mod_pos_bound H 20 ltac:(lia)) as B.
  apply to_int_round;
    change (2 ^ 53) with 9007199254740992;
    change (2 ^ 57) with 144115188075855872;
    change (2 ^ (57 + 53)) with 1298074214633706907132624082305024; lia.
Qed.

Lemma to_int_mul_0_25 (h : Z) :
  0 <= h < 2 ^ 49 -> to_int (mul (of_int h) (literal 25 100)) = h / 4.
Proof.
  intros [H0 H1]. change (2 ^ 49) with 562949953421312 in H1.
  rewrite of_int_exact by (change (2 ^ 53) with 9007199254740992; lia).
  change (literal 25 100) with (mk 4503599627370496 (-54)).
  unfold mul. cbn [Fnum Fexp]. change (0 + -54) with (Z.opp 54).
  pose proof (Z.div_mod h 4 ltac:(lia)) as D.
  pose proof (Z.mod_pos_bound h 4 ltac:(lia)) as B.
  apply to_int_round;
    change (2 ^ 53) with 9007199254740992;
    change (2 ^ 54) with 18014398509481984;
    change (2 ^ (54 + 53)) with 162259276829213363391578010288128; lia.
Qed.

End FloatExact.

(** ** Further properties of the caption layout *)

(** [draw_caption_on_image] in terms of the quantities named above. *)
Lemma draw_caption_on_image_layout
    (P : Platform) (image : Image) (text position : str) :
  draw_caption_on_image P image text position =
    let W := fst (size image) in
    let H := snd (size image) in
    let font := first_font P font_candidates (base_size W) in
    let lines := wrap_text P image font W (upper P text) in
    let line_height :=
      bbox_bottom (Font_getbbox P font (of_ascii "Ay"))
      - bbox_top (Font_getbbox P font (of_ascii "Ay")) in
    let total_h := block_height (Z.of_nat (length lines)) line_height in
    Image_save_JPEG P
      (draw_lines P image font W line_height (line_gap line_height)
         (stroke_width W) lines (start_y H total_h position))
      92.
Proof.
  unfold draw_caption_on_image. destruct (size image) as [W H]. reflexivity.
Qed.

(** X11. For an image up to [2 ^ 50] pixels wide, the font size is
    [max(24, W // 12)] and the outline is [max(2, W // 144)] pixels wide:
    never below 24 and 2, and growing with the image from 288 and 432
    pixels of width on. *)
Theorem font_size_and_stroke (W : Z) :
  0 <= W < 2 ^ 50 ->
  base_size W = Z.max 24 (W / 12)
  /\ stroke_width W = Z.max 2 (W / 144)
  /\ (W < 288 -> base_size W = 24)
  /\ (W < 432 -> stroke_width W = 2).
Proof.
  intros HW.
  assert (B : base_size W = Z.max 24 (W / 12)).
  { unfold base_size. now rewrite to_int_div_int by lia. }
  assert (Q : 0 <= W / 12 <= W).
  { split; [apply Z.div_pos; lia | apply Z.div_le_upper_bound; lia]. }
  assert (S : stroke_width W = Z.max 2 (W / 144)).
  { unfold stroke_width. rewrite B.
    change (2 ^ 50) with 1125899906842624 in HW.
    rewrite to_int_div_int
      by (change (2 ^ 50) with 1125899906842624; lia).
    replace (W / 144) with (W / 12 / 12) by (rewrite Z.div_div by lia; reflexivity).
    destruct (Z.max_spec 24 (W / 12)) as [[L ->]|[L ->]].
    - assert (2 <= W / 12 / 12) by (apply Z.div_le_lower_bound; lia). lia.
    - change (24 / 12) with 2.
      assert (W / 12 / 12 <= 2) by (apply Z.div_le_upper_bound; lia). lia. }
  repeat split; auto.
  - intros L. rewrite B.
    assert (W / 12 < 24) by (apply Z.div_lt_upper_bound; lia). lia.
  - intros L. rewrite S.
    assert (W / 144 < 3) by (apply Z.div_lt_upper_bound; lia). lia.
Qed.

Lemma font_size_and_stroke_witness :
  base_size 1000 = Z.max 24 (1000 / 12)
  /\ stroke_width 1000 = Z.max 2 (1000 / 144)
  /\ (1000 < 288 -> base_size 1000 = 24)
  /\ (1000 < 432 -> stroke_width 1000 = 2).
Proof.
  apply (font_size_and_stroke 1000). vm_compute. split; [discriminate | reflexivity].
Defined.

(** X12. For an image up to [2 ^ 49] pixels wide, the limit a line is measured
    against is [9 * W // 10], nine tenths of the width rounded down. *)
Theorem wrap_limit_nine_tenths (W : Z) :
  0 <= W < 2 ^ 49 -> wrap_limit W = 9 * W / 10.
Proof. apply to_int_mul_0_9. Qed.

Lemma wrap_limit_nine_tenths_witness : wrap_limit 1005 = 9 * 1005 / 10.
Proof.
  apply (wrap_limit_nine_tenths 1005). vm_compute. split; [discriminate | reflexivity].
Defined.

(** X14. Vertical placement, for an image up to [2 ^ 49] pixels high.  With
    [top] the block starts [H // 20] below the top edge.  With any position
    other than [top] and [center] ([bottom] or not) it ends [H // 20] above
    the bottom edge.  With [center], when the block fits, the space above it
    and the space below it differ by at most one pixel. *)
Theorem vertical_placement (H total_h : Z) (position : str) :
  0 <= H < 2 ^ 49 ->
  (position = of_ascii "top" -> start_y H total_h position = H / 20)
  /\ (position <> of_ascii "top" -> position <> of_ascii "center" ->
      start_y H total_h position + total_h = H - H / 20
      /\ start_y H total_h position = start_y H total_h (of_ascii "bottom"))
  /\ (position = of_ascii "center" -> 0 <= total_h <= H ->
      let y := start_y H total_h position in
      y = (H - total_h) / 2 /\ 0 <= (H - total_h - y) - y <= 1).
Proof.
  intros HH. repeat split.
  - intros ->. unfold start_y. rewrite eqb_refl.
    now apply to_int_mul_0_05.
  - unfold start_y. apply eqb_neq in H0, H1. rewrite H0, H1.
    rewrite to_int_mul_0_05 by exact HH. lia.
  - unfold start_y. apply eqb_neq in H0, H1. rewrite H0, H1. reflexivity.
  - subst position. unfold start_y.
    change (eqb (of_ascii "center") (of_ascii "top")) with false.
    change (eqb (of_ascii "center") (of_ascii "center")) with true. cbv iota.
    apply to_int_div_int; [|lia].
    change (2 ^ 49) with 562949953421312 in HH.
    change (2 ^ 50) with 1125899906842624. lia.
  - subst position. cbv zeta. unfold start_y.
    change (eqb (of_ascii "center") (of_ascii "top")) with false.
    change (eqb (of_ascii "center") (of_ascii "center")) with true. cbv iota.
    rewrite to_int_div_int.
    + pose proof (Z.div_mod (H - total_h) 2 ltac:(lia)).
      pose proof (Z.mod_pos_bound (H - total_h) 2 ltac:(lia)). lia.
    + change (2 ^ 49) with 562949953421312 in HH.
      change (2 ^ 50) with 1125899906842624. lia.
    + lia.
  - subst position. cbv zeta. unfold start_y.
    change (eqb (of_ascii "center") (of_ascii "top")) with false.
    change (eqb (of_ascii "center") (of_ascii "center")) with true. cbv iota.
    rewrite to_int_div_int.
    + pose proof (Z.div_mod (H - total_h) 2 ltac:(lia)).
      pose proof (Z.mod_pos_bound (H - total_h) 2 ltac:(lia)). lia.
    + change (2 ^ 49) with 562949953421312 in HH.
      change (2 ^ 50) with 1125899906842624. lia.
    + lia.
Qed.

Lemma vertical_placement_witness :
  (of_ascii "bottom" = of_ascii "top" ->
   start_y 800 100 (of_ascii "bottom") = 800 / 20)
  /\ (of_ascii "bottom" <> of_ascii "top" ->
      of_ascii "bottom" <> of_ascii "center" ->
      start_y 800 100 (of_ascii "bottom") + 100 = 800 - 800 / 20
      /\ start_y 800 100 (of_ascii "bottom")
         = start_y 800 100 (of_ascii "bottom"))
  /\ (of_ascii "bottom" = of_ascii "center" -> 0 <= 100 <= 800 ->
      let y := start_y 800 100 (of_ascii "bottom") in
      y = (800 - 100) / 2 /\ 0 <= (800 - 100 - y) - y <= 1).
Proof.
  apply (vertical_placement 800 100 (of_ascii "bottom")).
  vm_compute. split; [discriminate | reflexivity].
Defined.

Section DrawCalls.

Variable P : Platform.
Variable font : Font P.
Variables W line_height gap stroke : Z.

Lemma draw_lines_replay (lines : list str) : forall image y,
  draw_lines P image font W line_height gap stroke lines y =
    replay_calls P font stroke image
      (draw_calls P image font W line_height gap stroke lines y).
Proof.
  induction lines as [|l rest IH]; intros image y; [reflexivity|].
  cbn [draw_lines draw_calls]. cbv zeta. rewrite IH. reflexivity.
Qed.

Lemma draw_calls_texts (lines : list str) : forall image y,
  map snd (draw_calls P image font W line_height gap stroke lines y) = lines.
Proof.
  induction lines as [|l rest IH]; intros image y; [reflexivity|].
  cbn [draw_calls]. cbv zeta. cbn [map snd]. now rewrite IH.
Qed.

Lemma draw_calls_ordinates (lines : list str) : forall image y,
  map (fun c => snd (fst c))
      (draw_calls P image font W line_height gap stroke lines y)
  = map (fun i => y + Z.of_nat i * (line_height + gap))
        (seq 0 (length lines)).
Proof.
  induction lines as [|l rest IH]; intros image y; [reflexivity|].
  cbn [draw_calls length seq]. cbv zeta. cbn [map fst snd].
  rewrite IH, <- seq_shift, map_map. f_equal; [lia|].
  apply map_ext. intros i. lia.
Qed.

(** X15. The lines are drawn one call each, in order, the first at [y] and each
    next one [line_height + gap] lower. *)
Theorem draw_lines_evenly_spaced (image : Image) (lines : list str) (y : Z) :
  let calls := draw_calls P image font W line_height gap stroke lines y in
  draw_lines P image font W line_height gap stroke lines y
  = replay_calls P font stroke image calls
  /\ map snd calls = lines
  /\ map (fun c => snd (fst c)) calls
     = map (fun i => y + Z.of_nat i * (line_height + gap))
           (seq 0 (length lines)).
Proof.
  cbv zeta.
  auto using draw_lines_replay, draw_calls_texts, draw_calls_ordinates.
Qed.

(** X16. Each line is centred on the image as the loop finds it: the [i]-th
    call draws its line at [(W - tw) // 2], where [tw] is the width of that
    line measured on the image the [i] calls before it have produced, as
    soon as this width is not larger than the image; the space left of the
    line and the space right of it then differ by at most one pixel. *)
Theorem draw_lines_centred (lines : list str) :
  forall (image : Image) (y : Z) (i : nat) (x y0 : Z) (line : str),
  0 <= W < 2 ^ 50 ->
  nth_error (draw_calls P image font W line_height gap stroke lines y) i
  = Some (x, y0, line) ->
  let before :=
    replay_calls P font stroke image
      (firstn i (draw_calls P image font W line_height gap stroke lines y)) in
  let tw := text_width P before font line in
  0 <= tw <= W ->
  x = (W - tw) / 2 /\ 0 <= (W - tw - x) - x <= 1.
Proof.
  induction lines as [|l rest IH]; intros image y i x y0 line HW.
  - destruct i; discriminate.
  - cbn [draw_calls]. cbv zeta. destruct i as [|i].
    + cbn [nth_error firstn]. intros E. injection E as <- <- <-.
      unfold replay_calls. cbn [fold_left]. intros Htw.
      fold (text_width P image font l).
      assert (E : Float.to_int (Float.div_int (W - text_width P image font l) 2)
                  = (W - text_width P image font l) / 2).
      { apply to_int_div_int; lia. }
      unfold text_width in *. rewrite E.
      split; [reflexivity|].
      pose proof (Z.div_mod (W - (bbox_right (Draw_textbbox P image l font)
                                  - bbox_left (Draw_textbbox P image l font))) 2
                    ltac:(lia)).
      pose proof (Z.mod_pos_bound
                    (W - (bbox_right (Draw_textbbox P image l font)
                          - bbox_left (Draw_textbbox P image l font))) 2
                    ltac:(lia)).
      lia.
    + cbn [nth_error firstn]. intros E.
      unfold replay_calls. cbn [fold_left fst snd].
      apply (IH _ _ i x y0 line HW E).
Qed.

End DrawCalls.

Lemma draw_lines_centred_witness :
  15 = (61 - text_width Small.platform
                (replay_calls Small.platform tt 2 (Small.photo 61 40)
                   (firstn 1 (draw_calls Small.platform (Small.photo 61 40) tt
                                61 11 2 2
                                [of_ascii "ONE TWO"; of_ascii "THREE"] 5)))
                tt (of_ascii "THREE")) / 2
  /\ 0 <= (61 - text_width Small.platform
                  (replay_calls Small.platform tt 2 (Small.photo 61 40)
                     (firstn 1 (draw_calls Small.platform (Small.photo 61 40) tt
                                  61 11 2 2
                                  [of_ascii "ONE TWO"; of_ascii "THREE"] 5)))
                  tt (of_ascii "THREE") - 15) - 15 <= 1.
Proof.
  apply (draw_lines_centred Small.platform tt 61 11 2 2
           [of_ascii "ONE TWO"; of_ascii "THREE"] (Small.photo 61 40) 5
           1%nat 15 18 (of_ascii "THREE")).
  - vm_compute. split; [discriminate | reflexivity].
  - reflexivity.
  - vm_compute. split; discriminate.
Defined.

(** ** Further properties of the overlay placement *)

(** X18. An overlay other than [dog], [sunglasses] and [flower] is centred: the
    space left of it and the space right of it differ by at most one pixel,
    and so do the space above it and the space below it, whatever the two
    sizes. *)
Theorem overlay_default_centred (filter_name : str) (W H w h : Z) :
  filter_name <> of_ascii "dog" ->
  filter_name <> of_ascii "sunglasses" ->
  filter_name <> of_ascii "flower" ->
  let x := fst (overlay_pos filter_name W H (w, h)) in
  let y := snd (overlay_pos filter_name W H (w, h)) in
  -1 <= (W - w - x) - x <= 1 /\ -1 <= (H - h - y) - y <= 1.
Proof.
  intros D S F. apply eqb_neq in D, S, F.
  unfold overlay_pos. rewrite D, S, F. cbn [fst snd].
  pose proof (Z.div_mod W 2 ltac:(lia)). pose proof (Z.mod_pos_bound W 2 ltac:(lia)).
  pose proof (Z.div_mod H 2 ltac:(lia)). pose proof (Z.mod_pos_bound H 2 ltac:(lia)).
  pose proof (Z.div_mod w 2 ltac:(lia)). pose proof (Z.mod_pos_bound w 2 ltac:(lia)).
  pose proof (Z.div_mod h 2 ltac:(lia)). pose proof (Z.mod_pos_bound h 2 ltac:(lia)).
  lia.
Qed.

Lemma overlay_default_centred_witness :
  let x := fst (overlay_pos (of_ascii "hat") 1001 800 (500, 333)) in
  let y := snd (overlay_pos (of_ascii "hat") 1001 800 (500, 333)) in
  -1 <= (1001 - 500 - x) - x <= 1 /\ -1 <= (800 - 333 - y) - y <= 1.
Proof.
  apply (overlay_default_centred (of_ascii "hat") 1001 800 500 333);
    discriminate.
Defined.

Lemma overlay_pos_within_width (filter_name : str) (W H nh : Z) :
  0 <= W ->
  0 <= fst (overlay_pos filter_name W H (W / 2, nh))
  /\ fst (overlay_pos filter_name W H (W / 2, nh)) + W / 2 <= W.
Proof.
  intros HW. unfold overlay_pos.
  pose proof (Z.div_mod W 2 ltac:(lia)). pose proof (Z.mod_pos_bound W 2 ltac:(lia)).
  pose proof (Z.div_mod W 5 ltac:(lia)). pose proof (Z.mod_pos_bound W 5 ltac:(lia)).
  pose proof (Z.div_mod (W / 2) 2 ltac:(lia)).
  pose proof (Z.mod_pos_bound (W / 2) 2 ltac:(lia)).
  destruct (eqb filter_name (of_ascii "dog")); [cbn [fst]; lia|].
  destruct (eqb filter_name (of_ascii "sunglasses")); [cbn [fst]; lia|].
  destruct (eqb filter_name (of_ascii "flower")); cbn [fst]; lia.
Qed.

(** X19. Whenever the overlay branch returns an image, the overlay it pasted is
    [W // 2] wide and lies between the left and the right edge of the base
    image, whatever its name; only the bottom edge can be crossed. *)
Theorem overlay_pasted_within_width
    (P : Platform) (L : PlatformLaws P) (img out : Image) (filter_name : str) :
  0 <= fst (size img) ->
  apply_overlay P img filter_name = Ok out ->
  exists resized x y,
    out = Image_convert P
            (Image_paste P (Image_convert P img ModeRGBA) resized (x, y) resized)
            ModeRGB
    /\ fst (size resized) = fst (size img) / 2
    /\ 0 <= x /\ x + fst (size resized) <= fst (size img).
Proof.
  intros HW. unfold apply_overlay.
  destruct (Image_open P (overlay_path filter_name)) as [ov|]; [|discriminate].
  cbn [bind]. destruct (size img) as [W H] eqn:S. cbn [fst] in *.
  destruct (overlay_new_size W _) as [sz|] eqn:N; [|discriminate].
  cbn [bind].
  destruct (Image_resize P _ sz LANCZOS) as [resized|] eqn:R; [|discriminate].
  cbn [bind]. intros E. inversion E.
  pose proof (resize_size P L _ _ _ _ R) as Sz.
  unfold overlay_new_size in N.
  destruct (Float.true_div _ _) as [aspect|]; [|discriminate].
  cbn [bind] in N. inversion N as [N']. rewrite <- N' in Sz.
  exists resized, (fst (overlay_pos filter_name W H (size resized))),
    (snd (overlay_pos filter_name W H (size resized))).
  rewrite <- surjective_pairing. split; [reflexivity|].
  rewrite Sz. cbn [fst]. split; [reflexivity|].
  now apply overlay_pos_within_width.
Qed.

Lemma overlay_pasted_within_width_witness :
  exists resized x y,
    Image_convert Small.platform
      (Image_paste Small.platform
         (Image_convert Small.platform (Small.photo 11 8) ModeRGBA)
         (Small.fill ModeRGBA (5, 2) [255; 255; 255; 128]%N)
         (11 / 5, 8 / 25)
         (Small.fill ModeRGBA (5, 2) [255; 255; 255; 128]%N))
      ModeRGB
    = Image_convert Small.platform
        (Image_paste Small.platform
           (Image_convert Small.platform (Small.photo 11 8) ModeRGBA)
           resized (x, y) resized)
        ModeRGB
    /\ fst (size resized) = fst (size (Small.photo 11 8)) / 2
    /\ 0 <= x /\ x + fst (size resized) <= fst (size (Small.photo 11 8)).
Proof.
  apply (overlay_pasted_within_width Small.platform small_platform_laws
           (Small.photo 11 8) _ (of_ascii "dog")).
  - vm_compute. discriminate.
  - reflexivity.
Defined.

(** ** Base64 *)

Section Base64Facts.

Import Base64.
Local Open Scope N_scope.

Lemma value_digit (n : N) : n < 64 -> value (digit n) = Some n.
Proof.
  intros H. unfold digit, value.
  repeat match goal with
         | |- context [?a <? ?b] => destruct (N.ltb_spec a b)
         | |- context [?a <=? ?b] => destruct (N.leb_spec a b)
         | |- context [?a =? ?b] => destruct (N.eqb_spec a b)
         | _ => progress cbn [andb]
         end; try (f_equal; lia); try lia.
Qed.

Lemma digit_not_pad (n : N) : (digit n =? pad) = false.
Proof.
  unfold digit, pad. apply N.eqb_neq.
  repeat match goal with
         | |- context [?a <? ?b] => destruct (N.ltb_spec a b)
         | |- context [?a =? ?b] => destruct (N.eqb_spec a b)
         end; lia.
Qed.

Lemma list_ind3 {A} (Q : list A -> Prop) :
  Q [] -> (forall a, Q [a]) -> (forall a b, Q [a; b]) ->
  (forall a b c rest, Q rest -> Q (a :: b :: c :: rest)) ->
  forall l, Q l.
Proof.
  intros H0 H1 H2 H3.
  fix IH 1. intros [|a [|b [|c rest]]];
    [exact H0 | apply H1 | apply H2 | apply H3, IH].
Qed.

Ltac N_euclid := zify; Z.to_euclidean_division_equations; lia.

(** Decoding what [encode] gives returns the bytes. *)
Lemma decode_encode (bs : list N) :
  Forall (fun b => b < 256) bs -> decode (encode bs) = Some bs.
Proof.
  induction bs as [|a|a b|a b c rest IH] using list_ind3; intros F.
  - reflexivity.
  - inversion F as [|? ? Ha _]; subst.
    cbn [encode decode].
    rewrite !value_digit by N_euclid.
    change (pad =? pad) with true. cbv iota.
    do 2 f_equal. N_euclid.
  - inversion F as [|? ? Ha F1]; subst. inversion F1 as [|? ? Hb _]; subst.
    cbn [encode decode].
    rewrite !value_digit by N_euclid.
    rewrite !digit_not_pad.
    change (pad =? pad) with true. cbv iota.
    do 2 f_equal; [N_euclid|]. f_equal. N_euclid.
  - inversion F as [|? ? Ha F1]; subst. inversion F1 as [|? ? Hb F2]; subst.
    inversion F2 as [|? ? Hc F3]; subst.
    cbn [encode decode].
    rewrite !value_digit by N_euclid.
    rewrite !digit_not_pad. rewrite (IH F3).
    f_equal. f_equal; [N_euclid|]. f_equal; [N_euclid|]. f_equal. N_euclid.
Qed.

Lemma length_encode (bs : list N) :
  length (encode bs) = (4 * ((length bs + 2) / 3))%nat.
Proof.
  induction bs as [|a|a b|a b c rest IH] using list_ind3; try reflexivity.
  cbn [encode length]. rewrite IH.
  replace (S (S (S (length rest))) + 2)%nat with (length rest + 2 + 1 * 3)%nat by lia.
  rewrite Nat.div_add by lia. lia.
Qed.

Lemma bytes_bounded (raw : bytes) : Forall (fun b => b < 256) (map Byte.to_N raw).
Proof.
  apply Forall_forall. intros b Hb. apply in_map_iff in Hb as [x [<- _]].
  pose proof (Stdlib.Strings.Byte.to_N_bounded x). lia.
Qed.

End Base64Facts.

(** ** The request handlers *)

(** X20. [file_to_data_url] hands back the bytes it read, unchanged, with a URL
    [data:{mime};base64,{payload}] whose payload decodes to these bytes and
    is four characters long for every three bytes, rounded up; the media
    type is the upload's, or [image/png] when it has none. *)
Theorem file_to_data_url_round_trip (file_storage : Upload) :
  let url := fst (file_to_data_url file_storage) in
  let raw := snd (file_to_data_url file_storage) in
  raw = content file_storage
  /\ exists mime payload,
       url = of_ascii "data:" ++ mime ++ of_ascii ";base64," ++ payload
       /\ mime = match mimetype file_storage with
                 | [] => of_ascii "image/png"
                 | m => m
                 end
       /\ Base64.decode payload = Some (map Byte.to_N raw)
       /\ length payload = (4 * ((length raw + 2) / 3))%nat.
Proof.
  cbv zeta. unfold file_to_data_url. cbn [fst snd]. split; [reflexivity|].
  exists (or_default (Some (mimetype file_storage)) (of_ascii "image/png")),
    (Base64.b64encode (content file_storage)).
  split; [reflexivity|].
  split; [destruct (mimetype file_storage); reflexivity|].
  split.
  - unfold Base64.b64encode. apply decode_encode, bytes_bounded.
  - unfold Base64.b64encode. now rewrite length_encode, length_map.
Qed.

(** X21. The caption route answers 400 exactly when no image was uploaded, and
    otherwise 500 or 200; a body of suggestions only comes with status 200
    and holds at most three captions. *)
Theorem generate_captions_route_shape (S : Server) (rq : Request) :
  let r := generate_captions_route S rq in
  (snd r = 400 <-> files_image rq = None)
  /\ (files_image rq = None ->
      r = (BodyError (of_ascii "No image provided"), 400))
  /\ (snd r = 200 \/ snd r = 400 \/ snd r = 500)
  /\ (forall s, fst r = BodySuggestions s ->
        snd r = 200 /\ (length (captions s) <= 3)%nat).
Proof.
  cbv zeta. unfold generate_captions_route.
  destruct (files_image rq) as [u|].
  - destruct (file_to_data_url u) as [data_url raw].
    destruct (chat_completion_content S data_url) as [text|e]; cbn [fst snd].
    + repeat split; try discriminate; auto.
      inversion H; subst.
      rewrite generate_captions_fold. cbn zeta. cbn [captions].
      destruct (fold_process_line (raw_lines text) no_suggestions) as [E _];
        [simpl; lia|].
      rewrite E. cbn [no_suggestions captions app length Nat.sub].
      rewrite length_firstn. lia.
    + repeat split; try discriminate; auto.
  - cbn [json_error fst snd]. repeat split; try discriminate; auto.
Qed.

(** The text a request carries, as [finalize_meme] reads it. *)
Lemma finalize_meme_some (P : Platform) (S : Server) (rq : Request) upload :
  files_image rq = Some upload ->
  finalize_meme P S rq =
    let text := strip (or_default (form_text rq) []) in
    match text with
    | [] => json_error (of_ascii "Missing 'text' field.") 400
    | _ =>
        match finalize_pipeline P S upload text
                (lower P (strip (or_default (form_position rq) (of_ascii "bottom"))))
                (lower P (strip (or_default (form_filter rq) []))) with
        | Ok final_bytes => (BodyImage (Base64.b64encode final_bytes), 200)
        | Raise e => (BodyException e, 500)
        end
    end.
Proof. intros E. unfold finalize_meme. now rewrite E. Qed.

(** X22. [finalize_meme] validates before it touches the image.  Without an
    image it answers 400 [No image provided], whatever the fields; with an
    image and a text that is absent, empty or only whitespace it answers 400
    [Missing 'text' field.], whether or not the upload can be decoded.  In
    every other case the status is 200 or 500, never 400. *)
Theorem finalize_meme_validation (P : Platform) (S : Server) (rq : Request) :
  let r := finalize_meme P S rq in
  let blank := strip (or_default (form_text rq) []) = [] in
  (files_image rq = None ->
   r = (BodyError (of_ascii "No image provided"), 400))
  /\ (files_image rq <> None -> blank ->
      r = (BodyError (of_ascii "Missing 'text' field."), 400))
  /\ (snd r = 400 <-> files_image rq = None \/ blank)
  /\ (snd r = 200 \/ snd r = 400 \/ snd r = 500).
Proof.
  cbv zeta. destruct (files_image rq) as [u|] eqn:F.
  - rewrite (finalize_meme_some P S rq u F). cbv zeta.
    destruct (strip (or_default (form_text rq) [])) as [|c t] eqn:T.
    + cbn [json_error snd]. repeat split; intros; auto; discriminate.
    + destruct (finalize_pipeline P S u (c :: t) _ _); cbn [snd];
        repeat split; intros; auto; try discriminate;
        try (destruct H; discriminate); try contradiction.
  - unfold finalize_meme. rewrite F. cbn [json_error snd].
    repeat split; intros; auto; contradiction.
Qed.

(** X23. A text made of whitespace only is blank, so such a request is refused
    with 400 even when the upload is not an image at all. *)
Theorem finalize_meme_blank_text (P : Platform) (S : Server) (rq : Request)
    (text : str) :
  files_image rq <> None ->
  form_text rq = Some text -> forallb isspace text = true ->
  finalize_meme P S rq = (BodyError (of_ascii "Missing 'text' field."), 400).
Proof.
  intros F T B. destruct (files_image rq) as [u|] eqn:E; [|contradiction].
  rewrite (finalize_meme_some P S rq u E). cbv zeta. rewrite T.
  assert (Z : strip (or_default (Some text) []) = []).
  { destruct text as [|c t]; [reflexivity|]. cbn [or_default].
    unfold strip. now apply strip_by_all. }
  now rewrite Z.
Qed.

Lemma finalize_meme_blank_text_witness :
  finalize_meme Small.platform SmallServer.server
    (mkRequest (Some (mkUpload [] [])) (Some (of_ascii "   ")) None None)
  = (BodyError (of_ascii "Missing 'text' field."), 400).
Proof.
  apply (finalize_meme_blank_text Small.platform SmallServer.server
           (mkRequest (Some (mkUpload [] [])) (Some (of_ascii "   ")) None None)
           (of_ascii "   ")).
  - discriminate.
  - reflexivity.
  - reflexivity.
Defined.

(** X24. An unsupported filter is ignored from end to end: two requests that
    differ only in their filter field get the same response when neither
    field names a built-in transform or an existing asset. *)
Theorem finalize_meme_unsupported_filter_ignored
    (P : Platform) (S : Server) (image : option Upload)
    (text position filter1 filter2 : option str) :
  let unsupported f :=
    let n := strip (lower P (lower P (strip (or_default f [])))) in
    ~ In n builtin_filters /\ path_exists P (overlay_path n) = false in
  unsupported filter1 -> unsupported filter2 ->
  finalize_meme P S (mkRequest image text position filter1)
  = finalize_meme P S (mkRequest image text position filter2).
Proof.
  cbv zeta. intros [B1 E1] [B2 E2].
  unfold finalize_meme. cbn [files_image form_text form_position form_filter].
  destruct image as [u|]; [|reflexivity].
  destruct (strip (or_default text [])) as [|c t]; [reflexivity|].
  assert (A : forall f img,
             ~ In (strip (lower P (lower P (strip (or_default f []))))) builtin_filters ->
             path_exists P (overlay_path
               (strip (lower P (lower P (strip (or_default f [])))))) = false ->
             apply_filter P img (lower P (strip (or_default f []))) = Ok img).
  { intros f img B E. rewrite apply_filter_not_builtin by exact B. now rewrite E. }
  unfold finalize_pipeline. destruct (file_to_data_url u) as [url raw].
  destruct (Image_open_bytes S raw) as [im|e]; [|reflexivity].
  cbn [bind]. now rewrite (A filter1 _ B1 E1), (A filter2 _ B2 E2).
Qed.

Lemma finalize_meme_unsupported_filter_ignored_witness :
  finalize_meme Small.platform SmallServer.server
    (mkRequest (Some SmallServer.upload) (Some (of_ascii "hi")) None
       (Some (of_ascii "Vintage")))
  = finalize_meme Small.platform SmallServer.server
      (mkRequest (Some SmallServer.upload) (Some (of_ascii "hi")) None None).
Proof.
  apply (finalize_meme_unsupported_filter_ignored Small.platform
           SmallServer.server (Some SmallServer.upload) (Some (of_ascii "hi"))
           None (Some (of_ascii "Vintage")) None).
  - split; [|reflexivity].
    vm_compute. intros [E|[E|[E|[E|[E|[]]]]]]; discriminate.
  - split; [|reflexivity].
    vm_compute. intros [E|[E|[E|[E|[E|[]]]]]]; discriminate.
Defined.

(** X25. A response with status 200 carries the base64 text of the bytes that
    [draw_caption_on_image] returned for the stripped, non-empty text of the
    request: it decodes to a captioned JPEG. *)
Theorem finalize_meme_success_payload
    (P : Platform) (S : Server) (rq : Request) (body : Body) :
  finalize_meme P S rq = (body, 200) ->
  exists image final_bytes,
    let text := strip (or_default (form_text rq) []) in
    let position :=
      lower P (strip (or_default (form_position rq) (of_ascii "bottom"))) in
    text <> []
    /\ draw_caption_on_image P image text position = Ok final_bytes
    /\ body = BodyImage (Base64.b64encode final_bytes)
    /\ Base64.decode (Base64.b64encode final_bytes)
       = Some (map Byte.to_N final_bytes).
Proof.
  unfold finalize_meme. destruct (files_image rq) as [u|]; [|discriminate].
  cbv zeta. destruct (strip (or_default (form_text rq) [])) as [|c t] eqn:T;
    [discriminate|].
  destruct (finalize_pipeline P S u (c :: t) _ _) as [final|e] eqn:F;
    [|discriminate].
  intros E. inversion E; subst.
  unfold finalize_pipeline in F. destruct (file_to_data_url u) as [url raw].
  destruct (Image_open_bytes S raw) as [im|]; [|discriminate].
  cbn [bind] in F. destruct (apply_filter P _ _) as [im2|]; [|discriminate].
  cbn [bind] in F. destruct (Image_save_JPEG_default S im2) as [raw2|]; [|discriminate].
  cbn [bind] in F. destruct (Image_open_bytes S raw2) as [im3|]; [|discriminate].
  cbn [bind] in F.
  exists im3, final. repeat split; auto; [discriminate|].
  unfold Base64.b64encode. apply decode_encode, bytes_bounded.
Qed.

Lemma finalize_meme_success_payload_witness :
  exists image final_bytes,
    let text := strip (or_default (Some (of_ascii " hi ")) []) in
    let position :=
      lower Small.platform (strip (or_default None (of_ascii "bottom"))) in
    text <> []
    /\ draw_caption_on_image Small.platform image text position = Ok final_bytes
    /\ BodyImage (Base64.b64encode
                    ([Byte.xff; Byte.xd8]
                       ++ repeat Byte.x00 12 ++ [Byte.xff; Byte.xd9]))
       = BodyImage (Base64.b64encode final_bytes)
    /\ Base64.decode (Base64.b64encode final_bytes)
       = Some (map Byte.to_N final_bytes).
Proof.
  apply (finalize_meme_success_payload Small.platform SmallServer.server
           (mkRequest (Some SmallServer.upload) (Some (of_ascii " hi ")) None None)).
  reflexivity.
Defined.

(** X26. An upload that cannot be decoded gives 500 with the decoder's
    exception, once the text is accepted: a bad image is never reported as a
    bad request. *)
Theorem finalize_meme_undecodable_upload
    (P : Platform) (S : Server) (rq : Request) (upload : Upload) (e : exn) :
  files_image rq = Some upload ->
  strip (or_default (form_text rq) []) <> [] ->
  Image_open_bytes S (content upload) = Raise e ->
  finalize_meme P S rq = (BodyException e, 500).
Proof.
  intros F T D. rewrite (finalize_meme_some P S rq upload F). cbv zeta.
  destruct (strip (or_default (form_text rq) [])) as [|c t]; [contradiction|].
  unfold finalize_pipeline, file_to_data_url. now rewrite D.
Qed.

Lemma finalize_meme_undecodable_upload_witness :
  finalize_meme Small.platform SmallServer.server
    (mkRequest (Some (mkUpload [Byte.x04] [])) (Some (of_ascii "hi")) None None)
  = (BodyException OSError, 500).
Proof.
  apply (finalize_meme_undecodable_upload Small.platform SmallServer.server
           _ (mkUpload [Byte.x04] []) OSError).
  - reflexivity.
  - discriminate.
  - reflexivity.
Defined.

(** ** More on the three fields and on the layout *)

(** X5. The reply gives [min(3, p)] captions for [p] plain lines, and the
    description is empty unless there are more than three plain lines. *)
Theorem captions_count_and_description (text : option str) :
  length (captions (generate_captions text))
  = Nat.min 3 (length (plain_lines text))
  /\ ((length (plain_lines text) <= 3)%nat ->
      captions (generate_captions text) = plain_lines text
      /\ description (generate_captions text) = []).
Proof.
  rewrite generate_captions_fold. cbn zeta. cbn [captions description].
  destruct (fold_process_line (raw_lines text) no_suggestions) as [E1 E2];
    [simpl; lia|].
  cbn [no_suggestions captions description length app Nat.sub] in E1, E2.
  rewrite E1, E2. fold (plain_lines text). split.
  - rewrite length_firstn. reflexivity.
  - intros L. rewrite firstn_all2, skipn_all2 by exact L. split; reflexivity.
Qed.

(** X13. For a line height below [2 ^ 49], the gap between two lines is a quarter
    of the line height, rounded down, so a block of [n] lines is
    [n * h + (n - 1) * (h // 4)] pixels high. *)
Theorem line_gap_quarter (line_height n : Z) :
  0 <= line_height < 2 ^ 49 ->
  line_gap line_height = line_height / 4
  /\ block_height n line_height = n * line_height + (n - 1) * (line_height / 4).
Proof.
  intros H. assert (G : line_gap line_height = line_height / 4)
    by (apply to_int_mul_0_25, H).
  split; [exact G|]. unfold block_height. now rewrite G.
Qed.

Lemma line_gap_quarter_witness :
  line_gap 11 = 11 / 4 /\ block_height 3 11 = 3 * 11 + (3 - 1) * (11 / 4).
Proof.
  apply (line_gap_quarter 11 3). vm_compute. split; [discriminate | reflexivity].
Defined.

(** X17. The font is the first candidate that loads, in the order of the list,
    and the default font when none loads; a candidate that fails to load is
    skipped, whatever it raises. *)
Theorem first_font_first_loadable
    (P : Platform) (skipped rest : list str) (base_size : Z) :
  Forall (fun c => exists e, ImageFont_truetype P c base_size = Raise e) skipped ->
  first_font P (skipped ++ rest) base_size = first_font P rest base_size
  /\ (rest = [] ->
      first_font P (skipped ++ rest) base_size = ImageFont_load_default P)
  /\ (forall c tail font,
        rest = c :: tail -> ImageFont_truetype P c base_size = Ok font ->
        first_font P (skipped ++ rest) base_size = font).
Proof.
  intros F.
  assert (E : first_font P (skipped ++ rest) base_size = first_font P rest base_size).
  { induction F as [|c l [e Hc] _ IH]; [reflexivity|].
    cbn [app first_font]. now rewrite Hc. }
  rewrite E. split; [reflexivity|]. split.
  - intros ->. reflexivity.
  - intros c tail font -> Hc. cbn [first_font]. now rewrite Hc.
Qed.

Lemma first_font_first_loadable_witness :
  first_font Small.platform (font_candidates ++ []) 24
  = first_font Small.platform [] 24
  /\ (@nil str = [] ->
      first_font Small.platform (font_candidates ++ []) 24
      = ImageFont_load_default Small.platform)
  /\ (forall c tail font,
        [] = c :: tail -> ImageFont_truetype Small.platform c 24 = Ok font ->
        first_font Small.platform (font_candidates ++ []) 24 = font).
Proof.
  apply (first_font_first_loadable Small.platform font_candidates [] 24).
  repeat constructor; exists OSError; reflexivity.
Defined.



